(** * train_and_predict.py: the adaptive interview and the market report

    A shallow embedding of [src/train_and_predict.py]:
    - [get_next_question_from_gemini], the Question Selector;
    - [fetch_market_trend], the Market Report Extractor;
    - [ask_questions], the Interview Engine (its questioning loop).

    A Python [str] is a [list ascii]: one character per code point, for
    texts whose code points are below 256.  The oracle (Gemini) and the
    person answering are inputs of the model: an oracle call yields a text
    or raises, an answer is the line typed at the prompt. *)

From Stdlib Require Import Ascii String.
From stdpp Require Import base decidable option list gmap strings relations.

Local Open Scope list_scope.

(** ** Python strings *)

Abbreviation str := (list ascii).

(** String literals of the source, written [py "..."]. *)
Definition lit (s : string) : str := list_ascii_of_string s.
Notation "'py' s" := (lit s%string) (at level 9, s at level 0, only parsing).

Definition nl : ascii := ascii_of_nat 10.
(** ["\n\n"] *)
Definition NN : str := [nl; nl].

Module PyStr.

(** [c.isspace()] for a code point below 256. *)
Definition isspace (c : ascii) : bool :=
  let n := nat_of_ascii c in
  ((9 <=? n) && (n <=? 13)) || ((28 <=? n) && (n <=? 32))
  || (n =? 133) || (n =? 160).

(** [s.lstrip()], [s.rstrip()], [s.strip()] *)
Fixpoint lstrip (s : str) : str :=
  match s with
  | c :: s' => if isspace c then lstrip s' else s
  | [] => []
  end.

Definition rstrip (s : str) : str := reverse (lstrip (reverse s)).

Definition strip (s : str) : str := rstrip (lstrip s).

(** [c.lower()] for a code point below 256: A-Z and the Latin-1 capitals
    (192-222 without the multiplication sign 215) move up by 32. *)
Definition lower_char (c : ascii) : ascii :=
  let n := nat_of_ascii c in
  if ((65 <=? n) && (n <=? 90)) || ((192 <=? n) && (n <=? 222) && negb (n =? 215))
  then ascii_of_nat (n + 32) else c.

Definition lower (s : str) : str := lower_char <$> s.

(** [t.startswith(sub)] *)
Fixpoint startswith (sub t : str) : bool :=
  match sub, t with
  | [], _ => true
  | a :: sub', b :: t' => bool_decide (a = b) && startswith sub' t'
  | _ :: _, [] => false
  end.

(** The first index at which [sub] occurs in [t]. *)
Fixpoint find0 (sub t : str) : option nat :=
  if startswith sub t then Some 0
  else match t with
       | [] => None
       | _ :: t' => S <$> find0 sub t'
       end.

(** [t.find(sub, start)] for [0 <= start]; [None] is Python's [-1]. *)
Definition find (t sub : str) (start : nat) : option nat :=
  if bool_decide (start ≤ length t)
  then (λ i, start + i) <$> find0 sub (drop start t)
  else None.

(** [sub in t] *)
Definition contains (sub t : str) : bool := bool_decide (is_Some (find0 sub t)).

(** [t[a:b]] for [0 <= a] and [0 <= b]. *)
Definition slice (t : str) (a b : nat) : str := take (b - a) (drop a t).

(** [sub] occurs in [t] at index [j]. *)
Definition occurs_at (sub t : str) (j : nat) : Prop :=
  j ≤ length t ∧ sub `prefix_of` drop j t.

(** All the indices at which [sub] occurs in [t], in increasing order. *)
Fixpoint occurrences (sub t : str) : list nat :=
  (if startswith sub t then [0] else [])
  ++ match t with
     | [] => []
     | _ :: t' => S <$> occurrences sub t'
     end.

End PyStr.

(** ** Python lists *)

Module PyList.

(** [l.remove(x)]: drops the first [x]; the source calls it only under
    [if x in l]. *)
Fixpoint remove (x : str) (l : list str) : list str :=
  match l with
  | [] => []
  | y :: l' => if bool_decide (y = x) then l' else y :: remove x l'
  end.

(** [l.index(x)]: the position of the first [x]. The source calls it with
    an [x] drawn from [l]; elsewhere the model answers [length l]. *)
Fixpoint index (x : str) (l : list str) : nat :=
  match l with
  | [] => 0
  | y :: l' => if bool_decide (y = x) then 0 else S (index x l')
  end.

(** [Series.unique()]: first occurrences, in order of appearance. *)
Fixpoint unique (l : list str) : list str :=
  match l with
  | [] => []
  | x :: l' => x :: filter (λ y, y ≠ x) (unique l')
  end.

End PyList.

(** ** The Question Selector: [get_next_question_from_gemini] *)

(** The Oracle Client: [model.generate_content(prompt).text] yields a text,
    or raises an exception whose [str(e)] is [message]. *)
Inductive reply :=
| Text (text : str)
| Fails (message : str).

(** What a call can do: return a value, or raise to its caller. *)
Inductive exn := OracleError | IndexError.

Inductive outcome (A : Type) :=
| Returned (a : A)
| Raised (e : exn).
Arguments Returned {A} a.
Arguments Raised {A} e.

(** An exception leaves the calls that follow undone. *)
Global Instance outcome_ret : MRet outcome := λ A a, Returned a.
Global Instance outcome_bind : MBind outcome := λ A B f m,
  match m with
  | Returned a => f a
  | Raised e => Raised e
  end.

(** The fixed question of the [except] branch. *)
Definition other_interests : str := py "Do you have any other interests?".

(** The body of the [try] block, lines 45-47. [response] is what the oracle
    does on the prompt. [remaining_questions[0]] raises [IndexError] on the
    empty list. *)
Definition selector_try (remaining_questions : list str) (response : reply)
  : outcome str :=
  match response with
  | Fails _ => Raised OracleError
  | Text text =>
      let selected_question := PyStr.strip text in
      if bool_decide (selected_question ∈ remaining_questions)
      then Returned selected_question
      else match remaining_questions with
           | q :: _ => Returned q
           | [] => Raised IndexError
           end
  end.

(** Lines 27-50. [history] only feeds the prompt; the oracle's answer to
    that prompt is the parameter [response]. The handler [except Exception]
    catches every exception of the [try] block. *)
Definition get_next_question_from_gemini
    (history : list (str * str)) (remaining_questions : list str)
    (response : reply) : outcome str :=
  match selector_try remaining_questions response with
  | Returned q => Returned q
  | Raised _ =>
      Returned (match remaining_questions with
                | q :: _ => q
                | [] => other_interests
                end)
  end.

(** ** The Market Report Extractor: [fetch_market_trend] *)

Definition NA : str := py "N/A".
Definition RAW : str := py "Raw Output".
Definition colon : str := py ":".

Definition keys : list str :=
  [py "Market Demand"; py "Top Skills"; py "Expected Salary Range";
   py "Aligns with Market Trends"].

(** Lines 102-106: the smallest position, searched from [start + 1], of a
    later key followed by a colon; [len(text)] when there is none. *)
Definition next_key_scan (text : str) (start : nat) (later : list str) : nat :=
  foldl (λ next_key_pos next_key,
           match PyStr.find text (next_key ++ colon) (start + 1) with
           | Some next_pos => next_pos `min` next_key_pos
           | None => next_key_pos
           end)
        (length text) later.

(** Lines 99-112: one round of [for key in keys], on the dictionary [data]
    and the cursor [current_pos]. *)
Definition extract_step (text : str) (st : gmap str str * nat) (key : str)
  : gmap str str * nat :=
  let '(data, current_pos) := st in
  match PyStr.find text (key ++ colon) current_pos with
  | Some start =>
      let end0 :=
        if PyStr.contains NN (drop start text)
        then default (length text) (PyStr.find text NN start)
        else length text in
      let next_key_pos :=
        next_key_scan text start (drop (PyList.index key keys + 1) keys) in
      let end1 :=
        if bool_decide (next_key_pos ≠ length text)
        then end0 `min` next_key_pos else end0 in
      let value := PyStr.strip (PyStr.slice text (start + length key + 1) end1) in
      (<[key := value]> data, end1)
  | None => (<[key := NA]> data, current_pos)
  end.

(** Lines 94-114: the [try] block on the oracle's text. *)
Definition extract (text : str) : gmap str str :=
  (foldl (extract_step text) ({[RAW := text]}, 0) keys).1.

(** Lines 116-123: the dictionary of the [except] branch. *)
Definition unavailable (message : str) : gmap str str :=
  <[RAW := message]>
    (<[py "Aligns with Market Trends" := NA]>
       (<[py "Expected Salary Range" := NA]>
          (<[py "Top Skills" := NA]> {[py "Market Demand" := NA]}))).

(** Lines 90-123: [response] is what the oracle does on the prompt. Nothing
    in the [try] block raises but the oracle call. *)
Definition fetch_market_trend (response : reply) : gmap str str :=
  match response with
  | Text text => extract text
  | Fails message => unavailable message
  end.

Arguments lit : simpl never.
Arguments nl : simpl never.
Arguments NN : simpl never.
Arguments NA : simpl never.
Arguments RAW : simpl never.
Arguments colon : simpl never.
Arguments keys : simpl never.

(** *** Report texts laid out key by key

    The shape of a text that answers the prompt: for every key in turn,
    either nothing, or some text [gap], the key with its colon, and the
    [value] of the field; then [tail]. *)

Fixpoint layout (ks : list str) (cs : list (option (str * str))) (tail : str) : str :=
  match ks, cs with
  | key :: ks', Some (gap, value) :: cs' =>
      gap ++ key ++ colon ++ value ++ layout ks' cs' tail
  | _ :: ks', None :: cs' => layout ks' cs' tail
  | _, _ => tail
  end.

(** [r] is the end of the text or starts with a blank line. *)
Definition boundary (r : str) : bool :=
  bool_decide (r = []) || PyStr.startswith NN r.

(** [r] starts with one of the [later] keys and its colon. *)
Definition label_ahead (later : list str) (r : str) : bool :=
  existsb (λ k, PyStr.startswith (k ++ colon) r) later.

(** A value holds no blank line, and what follows it is a [boundary] or a
    later key: the three ends of a value in lines 101-107. *)
Fixpoint well_laid (ks : list str) (cs : list (option (str * str))) (tail : str) : bool :=
  match ks, cs with
  | _ :: ks', Some (_, value) :: cs' =>
      negb (PyStr.contains NN value)
      && (boundary (layout ks' cs' tail) || label_ahead ks' (layout ks' cs' tail))
      && well_laid ks' cs' tail
  | _ :: ks', None :: cs' => well_laid ks' cs' tail
  | _, _ => true
  end.

(** Every key with its colon occurs in [text] once when it is laid out,
    and not at all otherwise. *)
Definition labels_once (text : str) (ks : list str) (cs : list (option (str * str))) : Prop :=
  Forall2 (λ key c, length (PyStr.occurrences (key ++ colon) text)
                    = if c is Some _ then 1 else 0) ks cs.

(** The field that a laid out key should get. *)
Definition field_of (c : option (str * str)) : str :=
  match c with
  | Some (_, value) => PyStr.strip value
  | None => NA
  end.

(** The scenario text of the specification. *)
Definition scenario_text : str :=
  py "Market Demand: high, growing fast" ++ NN ++
  py "Top Skills: Python, SQL" ++ NN ++
  py "Expected Salary Range: 60k-120k" ++ NN ++
  py "Aligns with Market Trends: yes, strong fit".

(** The scenario text without its "Top Skills" part, as a layout. *)
Definition scenario_chunks_missing : list (option (str * str)) :=
  [Some ([], py " high, growing fast"); None;
   Some (NN, py " 60k-120k"); Some (NN, py " yes, strong fit")].

(** A text with one field on each line and no "Top Skills" line, as a
    layout: each value ends at the next label. *)
Definition line_chunks_missing : list (option (str * str)) :=
  [Some ([], py " high" ++ [nl]); None;
   Some ([], py " 60k" ++ [nl]); Some ([], py " yes")].

(** [current_pos] when the loop of line 98 reaches the key of index [i]. *)
Definition cursor_before (text : str) (i : nat) : nat :=
  (foldl (extract_step text) ({[RAW := text]}, 0) (take i keys)).2.

(** ** The Interview Engine: [ask_questions] *)

(** A row of the question table (the DataFrame of [load_questions], whose
    [NextIfYes] and [NextIfNo] columns are strings, empty when absent). *)
Record QuestionRecord := {
  QuestionID : str;
  Question : str;
  NextIfYes : str;
  NextIfNo : str;
}.

(** What an interview shows to the outside. *)
Inductive event :=
| EvSelect (pool : list str) (chosen : str)
    (** a call of the Question Selector on [pool], returning [chosen] *)
| EvAsk (question answer : str)
    (** a question put to the person, with the answer recorded *)
| EvNoMore.
    (** the message "No more questions available." *)

(** The variables of [ask_questions] that live across rounds, the number of
    oracle calls made so far, and the events so far (oldest first). *)
Record state := {
  history : list (str * str);
  asked_ids : gset str;
  remaining_questions : list str;
  current_id : option str;
  asked_count : nat;
  use_csv_branching : bool;
  oracle_calls : nat;
  trace : list event;
}.

(** How a round of the [while] loop ends: at the head of the loop again, at
    a [break], or with an exception. *)
Inductive round :=
| Continue (s : state)
| Break (s : state)
| Abort (e : exn).

Definition set_branching (b : bool) (s : state) : state :=
  {| history := history s; asked_ids := asked_ids s;
     remaining_questions := remaining_questions s; current_id := current_id s;
     asked_count := asked_count s; use_csv_branching := b;
     oracle_calls := oracle_calls s; trace := trace s |}.

Definition set_current_id (c : option str) (s : state) : state :=
  {| history := history s; asked_ids := asked_ids s;
     remaining_questions := remaining_questions s; current_id := c;
     asked_count := asked_count s; use_csv_branching := use_csv_branching s;
     oracle_calls := oracle_calls s; trace := trace s |}.

Definition add_asked_id (c : str) (s : state) : state :=
  {| history := history s; asked_ids := {[c]} ∪ asked_ids s;
     remaining_questions := remaining_questions s; current_id := current_id s;
     asked_count := asked_count s; use_csv_branching := use_csv_branching s;
     oracle_calls := oracle_calls s; trace := trace s |}.

Definition log (e : event) (s : state) : state :=
  {| history := history s; asked_ids := asked_ids s;
     remaining_questions := remaining_questions s; current_id := current_id s;
     asked_count := asked_count s; use_csv_branching := use_csv_branching s;
     oracle_calls := oracle_calls s; trace := trace s ++ [e] |}.

(** The questions put to the person in a run of events, with the answers. *)
Definition asked (tr : list event) : list (str * str) :=
  omap (λ e, match e with EvAsk q a => Some (q, a) | _ => None end) tr.

(** The pools that the Question Selector was called on. *)
Definition pools (tr : list event) : list (list str) :=
  omap (λ e, match e with EvSelect pool _ => Some pool | _ => None end) tr.

(** [if current_id:] -- [None] and the empty string are false. *)
Definition truthy (c : option str) : bool :=
  match c with
  | Some (_ :: _) => true
  | _ => false
  end.

(** [s'] has the record of the interview that [s] has: the oracle's pick
    changes neither the history, nor the pool, nor the count, and forgets no
    asked identifier. *)
Definition same_turn (s s' : state) : Prop :=
  history s' = history s
  ∧ remaining_questions s' = remaining_questions s
  ∧ asked_count s' = asked_count s
  ∧ asked_ids s ⊆ asked_ids s'.

Section Interview.

(** The question table, the oracle's behaviour at its n-th call, the line
    typed at the n-th question, and the arguments of [ask_questions]. *)
Variable questions : list QuestionRecord.
Variable oracle : nat → reply.
Variable answers : nat → str.
Variable start_id : str.
Variable min_questions : nat.

(** [questions[questions["QuestionID"] == current_id]], first row;
    nothing equals [None]. *)
Definition rows_by_id (c : option str) : list QuestionRecord :=
  match c with
  | Some i => filter (λ r, QuestionID r = i) questions
  | None => []
  end.

(** [questions[questions["Question"] == question]] *)
Definition rows_by_text (q : str) : list QuestionRecord :=
  filter (λ r, Question r = q) questions.

(** Lines 127-133. *)
Definition initial : state :=
  {| history := []; asked_ids := ∅;
     remaining_questions := PyList.unique (Question <$> questions);
     current_id := Some start_id; asked_count := 0;
     use_csv_branching := true; oracle_calls := 0; trace := [] |}.

(** A call [get_next_question_from_gemini(history, remaining_questions, ...)]
    from the loop: it uses up one oracle reply; an exception of the selector
    would leave [ask_questions]. *)
Definition select (s : state) : outcome (str * state) :=
  q ← get_next_question_from_gemini (history s) (remaining_questions s)
        (oracle (oracle_calls s));
  mret (q,
        {| history := history s; asked_ids := asked_ids s;
           remaining_questions := remaining_questions s;
           current_id := current_id s; asked_count := asked_count s;
           use_csv_branching := use_csv_branching s;
           oracle_calls := S (oracle_calls s);
           trace := trace s ++ [EvSelect (remaining_questions s) q] |}).

(** Lines 157-160 (and 187-190, 198-201): take the identifier of the first
    row with that text, if any, and mark it asked. *)
Definition adopt (q : str) (s : state) : state :=
  let c := QuestionID <$> head (rows_by_text q) in
  let s' := set_current_id c s in
  match c with
  | Some i => if truthy c then add_asked_id i s' else s'
  | None => s'
  end.

(** Lines 154-160 (and 185-190, 196-201): the oracle picks a question when
    the pool is not empty. *)
Definition oracle_pick (s : state) : outcome (option (str * state)) :=
  match remaining_questions s with
  | _ :: _ => '(q, s') ← select s; mret (Some (q, adopt q s'))
  | [] => mret None
  end.

(** Lines 166-169. *)
Definition read_answer (line : str) : str :=
  let answer := PyStr.lower (PyStr.strip line) in
  if bool_decide (answer ∈ [py "yes"; py "no"]) then answer else py "no".

(** Lines 172-175. *)
Definition record_answer (question answer : str) (s : state) : state :=
  {| history := history s ++ [(question, answer)];
     asked_ids := asked_ids s;
     remaining_questions :=
       if bool_decide (question ∈ remaining_questions s)
       then PyList.remove question (remaining_questions s)
       else remaining_questions s;
     current_id := current_id s;
     asked_count := asked_count s + 1;
     use_csv_branching := use_csv_branching s;
     oracle_calls := oracle_calls s;
     trace := trace s ++ [EvAsk question answer] |}.

(** Line 181: the test on [next_id]. *)
Definition valid_next (next_id : str) (s : state) : bool :=
  bool_decide (next_id ≠ [])
  && bool_decide (next_id ∈ QuestionID <$> questions)
  && bool_decide (next_id ∉ asked_ids s).

(** Lines 137-163: the question of this round, with the two branch targets
    [next_yes] and [next_no] when it comes from the table; or the state in
    which the loop is left. *)
Definition choose (s : state)
  : outcome (str * option (str * str) * state + state) :=
  let s := if bool_decide (5 ≤ asked_count s) then set_branching false s else s in
  if use_csv_branching s then
    match rows_by_id (current_id s) with
    | [] =>
        '(q, s') ← select (set_branching false s);
        mret (inl (q, None, set_current_id None s'))
    | row :: _ =>
        mret (inl (Question row, Some (NextIfYes row, NextIfNo row),
                   match current_id s with
                   | Some i => add_asked_id i s
                   | None => s
                   end))
    end
  else
    pick ← oracle_pick s;
    mret (match pick with
          | Some (q, s') => inl (q, None, s')
          | None => inr (log EvNoMore s)
          end).

(** Lines 185-193 (and 196-204): the oracle picks the question of the next
    round, or the loop is left with the message. *)
Definition pick_next (s : state) : round :=
  match oracle_pick s with
  | Returned (Some (_, s')) => Continue s'
  | Returned None => Break (log EvNoMore s)
  | Raised e => Abort e
  end.

(** Lines 178-204: what follows the answer. The targets are those of this
    round; a round without targets is in oracle mode ([choose_no_targets]
    below), where the source takes its [else] branch. *)
Definition advance (answer : str) (targets : option (str * str)) (s : state)
  : round :=
  match targets with
  | Some (next_yes, next_no) =>
      if use_csv_branching s && truthy (current_id s) then
        let next_id := if bool_decide (answer = py "yes") then next_yes else next_no in
        if valid_next next_id s then Continue (set_current_id (Some next_id) s)
        else pick_next (set_branching false s)
      else pick_next s
  | None => pick_next s
  end.

(** Lines 136-204: the body of the [while] loop. *)
Definition loop_body (s : state) : round :=
  match choose s with
  | Returned (inr s') => Break s'
  | Returned (inl (question, targets, s1)) =>
      let answer := read_answer (answers (asked_count s1)) in
      advance answer targets (record_answer question answer s1)
  | Raised e => Abort e
  end.

(** Line 135: [while asked_count < min_questions], run for at most [fuel]
    rounds; [None] when the fuel runs out first. The result is the state in
    which the loop is left, or the exception that left it. *)
Fixpoint loop (fuel : nat) (s : state) : option (outcome state) :=
  if bool_decide (asked_count s < min_questions) then
    match fuel with
    | 0 => None
    | S fuel' =>
        match loop_body s with
        | Continue s' => loop fuel' s'
        | Break s' => Some (Returned s')
        | Abort e => Some (Raised e)
        end
    end
  else Some (Returned s).

(** Lines 126-204: the state when the loop is left. Every round that
    continues asks one question, so [min_questions] rounds are enough
    ([loop_total] below). *)
Definition ask_questions : option (outcome state) := loop min_questions initial.

(** [s'] is the state in which the round that starts in [s] ends, whether
    the round continues the loop or leaves it. *)
Definition ends (s s' : state) : Prop :=
  loop_body s = Continue s' ∨ loop_body s = Break s'.

(** [s'] is the state at the head of the loop one round after [s]. *)
Definition continues (s s' : state) : Prop :=
  asked_count s < min_questions ∧ loop_body s = Continue s'.

(** [s'] is the state in which the loop, at its head in [s], is left. *)
Definition leaves (s s' : state) : Prop :=
  (min_questions ≤ asked_count s ∧ s' = s)
  ∨ (asked_count s < min_questions ∧ loop_body s = Break s').

(** The states at the head of the loop during the interview. *)
Definition reachable (s : state) : Prop := rtc continues initial s.

(** [s'] is the state one round after [s], whether the round continues the
    loop or leaves it. *)
Definition next_round (s s' : state) : Prop :=
  asked_count s < min_questions ∧ ends s s'.

(** The branch target of the round that starts in [s] cannot be taken: the
    identifier of [s] is in the table, and the target under the answer is
    empty, or not in the table, or asked already. *)
Definition branch_fails (s : state) : Prop :=
  ∃ c row rest,
    current_id s = Some c ∧ c ≠ [] ∧ rows_by_id (Some c) = row :: rest
    ∧ let next_id :=
        if bool_decide (read_answer (answers (asked_count s)) = py "yes")
        then NextIfYes row else NextIfNo row in
      next_id = [] ∨ next_id ∉ QuestionID <$> questions
      ∨ next_id = c ∨ next_id ∈ asked_ids s.

(** *** Invariants of the loop *)

(** In branching mode the pool is not empty or the identifier is in the
    table; and so far the selector met no empty pool. *)
Definition selects_well (s : state) : Prop :=
  (use_csv_branching s = true →
   remaining_questions s ≠ [] ∨ rows_by_id (current_id s) ≠ [])
  ∧ Forall (λ pool, pool ≠ []) (pools (trace s)).

(** The questions asked and the questions of the pool are, together, the
    questions of the table; and in branching mode the current identifier is
    not asked yet, it is in the table once a question was asked, and every
    question asked is the question of a row whose identifier is asked. *)
Definition fresh_texts (s : state) : Prop :=
  (history s).*1 ++ remaining_questions s ≡ₚ Question <$> questions
  ∧ (use_csv_branching s = true →
     ∃ c, current_id s = Some c ∧ (c ∉ asked_ids s)
          ∧ (history s = [] ∨ c ∈ (QuestionID <$> questions))
          ∧ ∀ q, q ∈ (history s).*1 →
                 ∃ r, r ∈ questions ∧ Question r = q ∧ QuestionID r ∈ asked_ids s).

End Interview.

Arguments select : simpl never.
Arguments oracle_pick : simpl never.
Arguments choose : simpl never.
Arguments advance : simpl never.
Arguments pick_next : simpl never.
Arguments loop_body : simpl never.
Arguments read_answer : simpl never.
Arguments valid_next : simpl never.
Arguments rows_by_id : simpl never.
Arguments rows_by_text : simpl never.

(** A small table: Q1 -> (yes: Q2, no: Q3), Q2 without targets, Q3 absent;
    and one more question outside the tree. *)
Definition demo_table : list QuestionRecord :=
  [ {| QuestionID := py "Q1"; Question := py "Do you like coding?";
       NextIfYes := py "Q2"; NextIfNo := py "Q3" |};
    {| QuestionID := py "Q2"; Question := py "Do you prefer teams?";
       NextIfYes := []; NextIfNo := [] |};
    {| QuestionID := py "Q4"; Question := py "Do you like art?";
       NextIfYes := []; NextIfNo := [] |} ].


(** An oracle that always fails, and a person who always types "YES ". *)
Definition demo_oracle : nat → reply := λ _, Fails [].
Definition demo_answers : nat → str := λ _, py "YES ".

(** The state in which a round of that interview on [demo_table] ends. *)
Definition demo_round (s : state) : state :=
  match loop_body demo_table demo_oracle demo_answers s with
  | Continue s' | Break s' => s'
  | Abort _ => s
  end.

(** ** The rest of the program *)

(** *** The Recommendation Synthesizer: [get_suggestion] *)

(** Lines 53-72. [history] only feeds the prompt; [response] is what the
    oracle does on it. *)
Definition get_suggestion (history : list (str * str)) (response : reply) : str :=
  match response with
  | Text text => PyStr.strip text
  | Fails _ => py "N/A"
  end.

(** *** The end of [ask_questions] *)

(** What lines 214-220 print: the recommendation, the four fields of the
    report and its raw text. *)
Record printout := {
  recommended : str;
  demand : str;
  top_skills : str;
  salary_range : str;
  alignment : str;
  details : str;
}.

(** Lines 214-220: [market_data[key]] for the five keys; [None] is the
    [KeyError] of a key that the dictionary does not have. *)
Definition present (suggestion : str) (market_data : gmap str str) : option printout :=
  d ← market_data !! py "Market Demand";
  t ← market_data !! py "Top Skills";
  r ← market_data !! py "Expected Salary Range";
  a ← market_data !! py "Aligns with Market Trends";
  raw ← market_data !! py "Raw Output";
  Some {| recommended := suggestion; demand := d; top_skills := t;
          salary_range := r; alignment := a; details := raw |}.

(** Lines 206-220, from the state in which the loop is left: the oracle is
    called once for the suggestion and once for the market trend. *)
Definition conclude (oracle : nat → reply) (s : state) : option printout :=
  let suggestion := get_suggestion (history s) (oracle (oracle_calls s)) in
  let market_data := fetch_market_trend (oracle (S (oracle_calls s))) in
  present suggestion market_data.

(** *** [load_questions] *)

(** The table that [pd.read_csv] returns: its column names and its rows. A
    cell is a string, or [None] for a missing value (NaN); the questions are
    strings, as [ask_questions] takes them. *)
Record raw_row := {
  raw_id : option str;
  raw_question : str;
  raw_yes : option str;
  raw_no : option str;
}.

Record frame := {
  columns : list str;
  rows : list raw_row;
}.

(** [\d] on a code point below 256. *)
Definition isdigit (c : ascii) : bool :=
  let n := nat_of_ascii c in (48 <=? n) && (n <=? 57).

(** [\d+$] from the second character on; [seen] tells that a digit was
    read. [$] matches at the end and before a newline that ends the text. *)
Fixpoint digits_to_end (seen : bool) (s : str) : bool :=
  match s with
  | [] => seen
  | c :: s' =>
      if isdigit c then digits_to_end true s'
      else seen && bool_decide (c = nl) && bool_decide (s' = [])
  end.

(** [re.match(r'^[QS]\d+$', i)] succeeds. *)
Definition id_pattern (i : str) : bool :=
  match i with
  | c :: ds =>
      (bool_decide (c = "Q"%char) || bool_decide (c = "S"%char))
      && digits_to_end false ds
  | [] => false
  end.

(** Line 13: [.str.match(..., na=False)] on a cell. *)
Definition id_matches (r : raw_row) : bool :=
  match raw_id r with
  | Some i => id_pattern i
  | None => false
  end.

(** Lines 18-19: [.fillna('').astype(str)] on a cell. *)
Definition fillna (c : option str) : str := default [] c.

Definition to_record (r : raw_row) : QuestionRecord :=
  {| QuestionID := default [] (raw_id r); Question := raw_question r;
     NextIfYes := fillna (raw_yes r); NextIfNo := fillna (raw_no r) |}.

(** Lines 5-24, from what [pd.read_csv] does: [parsed] is [None] when it
    raises. The result is [None] when the program exits ([exit(1)], also
    from the handler of line 21, which catches the [KeyError] of a missing
    [NextIfYes] or [NextIfNo] column). *)
Definition load_questions (parsed : option frame) : option (list QuestionRecord) :=
  match parsed with
  | None => None
  | Some df =>
      if negb (bool_decide (py "QuestionID" ∈ columns df))
         || negb (bool_decide (py "Question" ∈ columns df))
      then None
      else
        let kept := filter (λ r, id_matches r = true) (rows df) in
        if bool_decide (kept = []) then None
        else if bool_decide (py "NextIfYes" ∈ columns df)
                && bool_decide (py "NextIfNo" ∈ columns df)
        then Some (to_record <$> kept)
        else None
  end.

(** *** [main] *)

(** How a run of the program ends: on the message "Invalid choice.", on
    [exit(1)], on the printout of the interview, or on an exception. *)
Inductive ending :=
| InvalidChoice
| Exited
| Reported (out : printout)
| Crashed.

(** Lines 241-242 and 126-220, on what [pd.read_csv] does on the file. *)
Definition run_advisor (parsed : option frame) (oracle : nat → reply)
    (answers : nat → str) (start_id : str) : ending :=
  match load_questions parsed with
  | None => Exited
  | Some questions =>
      match ask_questions questions oracle answers start_id 10 with
      | Some (Returned s) =>
          match conclude oracle s with
          | Some out => Reported out
          | None => Crashed
          end
      | _ => Crashed
      end
  end.

(** Lines 223-242. [lines] are the lines typed: the choice, the key, then
    the answers; [career] and [skills] are what [pd.read_csv] does on the
    two files. *)
Definition main (lines : nat → str) (career skills : option frame)
    (oracle : nat → reply) : ending :=
  let choice := PyStr.strip (lines 0) in
  let answers := λ n, lines (n + 2) in
  if bool_decide (choice = py "1") then run_advisor career oracle answers (py "Q1")
  else if bool_decide (choice = py "2") then run_advisor skills oracle answers (py "S1")
  else InvalidChoice.

(** *** Trimmed texts *)

(** [s] neither starts nor ends with whitespace. *)
Definition trimmed (s : str) : Prop :=
  (∀ c, head s = Some c → PyStr.isspace c = false)
  ∧ (∀ c, last s = Some c → PyStr.isspace c = false).


(** *** A parsed file *)

(** What [pd.read_csv] gives on a file with the rows of [demo_table], a row
    without identifier and a row whose identifier is not of the form asked
    for. *)
Definition demo_frame : frame :=
  {| columns := [py "QuestionID"; py "Question"; py "NextIfYes"; py "NextIfNo"];
     rows :=
       [ {| raw_id := Some (py "Q1"); raw_question := py "Do you like coding?";
            raw_yes := Some (py "Q2"); raw_no := Some (py "Q3") |};
         {| raw_id := None; raw_question := py "Do you like maths?";
            raw_yes := None; raw_no := None |};
         {| raw_id := Some (py "Q2"); raw_question := py "Do you prefer teams?";
            raw_yes := None; raw_no := None |};
         {| raw_id := Some (py "X7"); raw_question := py "Do you like music?";
            raw_yes := Some (py "Q1"); raw_no := None |};
         {| raw_id := Some (py "Q4"); raw_question := py "Do you like art?";
            raw_yes := None; raw_no := None |} ] |}.

(** The lines typed by a person who picks the first mode, gives a key and
    then always types "YES ". *)
Definition demo_lines (n : nat) : str :=
  match n with
  | 0 => py " 1 "
  | 1 => py "key"
  | _ => py "YES "
  end.

(** * Properties *)

(** ** The model on concrete inputs *)

Example strip_demo :
  PyStr.strip (py "  Do you like coding? " ++ [nl]) = py "Do you like coding?".
Proof. reflexivity. Qed.

Example find_demo : PyStr.find (py "abcabc") (py "bc") 2 = Some 4.
Proof. reflexivity. Qed.

Example select_demo :
  get_next_question_from_gemini [] [py "Do you like coding?"; py "Do you prefer teams?"]
    (Text (py "Do you enjoy art?")) = Returned (py "Do you like coding?").
Proof. reflexivity. Qed.

Example scenario_demo :
  fetch_market_trend (Text scenario_text) !! py "Top Skills" = Some (py "Python, SQL").
Proof. vm_compute. reflexivity. Qed.

Example demo_run :
  ∃ final,
    ask_questions demo_table demo_oracle demo_answers (py "Q1") 10
    = Some (Returned final)
    ∧ (history final, remaining_questions final, asked_count final, trace final)
      = ([(py "Do you like coding?", py "yes");
           (py "Do you prefer teams?", py "yes");
           (py "Do you like art?", py "yes")], [], 3,
          [EvAsk (py "Do you like coding?") (py "yes");
           EvAsk (py "Do you prefer teams?") (py "yes");
           EvSelect [py "Do you like art?"] (py "Do you like art?");
           EvSelect [py "Do you like art?"] (py "Do you like art?");
           EvAsk (py "Do you like art?") (py "yes");
           EvNoMore]).
Proof. eexists. split; [vm_compute; reflexivity|]. reflexivity. Qed.

(** ** Substring search *)

Module PyStrFacts.
Import PyStr.

Lemma startswith_prefix sub t : startswith sub t = true ↔ sub `prefix_of` t.
Proof.
  revert t. induction sub as [|a sub IH]; intros t; simpl.
  - split; [intros _; apply prefix_nil | done].
  - destruct t as [|b t].
    + split; [done | intros H; by apply prefix_nil_not in H].
    + rewrite andb_true_iff, bool_decide_eq_true, IH. split.
      * intros [-> H]. by apply prefix_cons.
      * intros H. split; [by apply prefix_cons_inv_1 in H | by apply prefix_cons_inv_2 in H].
Qed.

Lemma occurs_at_0 sub t : occurs_at sub t 0 ↔ startswith sub t = true.
Proof.
  unfold occurs_at. rewrite startswith_prefix, drop_0. intuition lia.
Qed.

Lemma occurs_at_S sub c t j : occurs_at sub (c :: t) (S j) ↔ occurs_at sub t j.
Proof. unfold occurs_at. simpl. intuition lia. Qed.

Lemma occurs_at_app sub a r : occurs_at sub (a ++ sub ++ r) (length a).
Proof.
  split; [rewrite length_app; lia|].
  rewrite drop_app_length. by apply prefix_app_r.
Qed.

(** An occurrence, character by character. *)
Lemma occurs_at_lookup sub t j :
  occurs_at sub t j ↔ j ≤ length t ∧ ∀ i, i < length sub → t !! (j + i) = sub !! i.
Proof.
  unfold occurs_at. split; intros [Hj H]; (split; [done|]).
  - intros i Hi. destruct H as [r Hr].
    rewrite <- lookup_drop, Hr. by rewrite lookup_app_l.
  - exists (drop (length sub) (drop j t)).
    rewrite <- (take_drop (length sub) (drop j t)) at 1. f_equal.
    apply list_eq. intros i. destruct (decide (i < length sub)) as [Hi|Hi].
    + rewrite lookup_take_lt, lookup_drop by done. by apply H.
    + rewrite lookup_take_ge by lia. symmetry. apply lookup_ge_None. lia.
Qed.

Lemma occurs_at_lt sub t j : sub ≠ [] → occurs_at sub t j → j < length t.
Proof.
  intros Hne [Hj H]. destruct (decide (j = length t)) as [->|]; [|lia].
  rewrite drop_all in H. apply prefix_nil_inv in H. done.
Qed.

Lemma find0_Some sub t i :
  find0 sub t = Some i →
  occurs_at sub t i ∧ ∀ j, j < i → ¬ occurs_at sub t j.
Proof.
  revert i. induction t as [|c t IH]; intros i; simpl.
  - destruct (startswith sub []) eqn:E; [|done].
    intros [= <-]. split; [by apply occurs_at_0 | lia].
  - destruct (startswith sub (c :: t)) eqn:E.
    + intros [= <-]. split; [by apply occurs_at_0 | lia].
    + destruct (find0 sub t) as [i'|] eqn:F; [|done].
      intros [= <-]. destruct (IH i' eq_refl) as [H1 H2]. split.
      * by apply occurs_at_S.
      * intros [|j] Hj.
        -- rewrite occurs_at_0. congruence.
        -- rewrite occurs_at_S. apply H2. lia.
Qed.

Lemma find0_None sub t j : find0 sub t = None → ¬ occurs_at sub t j.
Proof.
  revert j. induction t as [|c t IH]; intros j; simpl.
  - destruct (startswith sub []) eqn:E; [done|]. intros _ [Hj H].
    simpl in Hj. assert (j = 0) as -> by lia.
    apply startswith_prefix in H. simpl in H. congruence.
  - destruct (startswith sub (c :: t)) eqn:E; [done|].
    destruct (find0 sub t) eqn:F; [done|]. intros _.
    destruct j as [|j].
    + rewrite occurs_at_0. congruence.
    + rewrite occurs_at_S. by apply IH.
Qed.

(** The first occurrence is the one [find0] returns. *)
Lemma find0_first sub t i :
  occurs_at sub t i → (∀ j, j < i → ¬ occurs_at sub t j) → find0 sub t = Some i.
Proof.
  intros Hi Hfirst. destruct (find0 sub t) as [i'|] eqn:F.
  - destruct (find0_Some _ _ _ F) as [H1 H2]. f_equal.
    destruct (Nat.lt_trichotomy i' i) as [?|[?|?]]; [|done|].
    + destruct (Hfirst i'); done.
    + destruct (H2 i); done.
  - by destruct (find0_None _ _ i F).
Qed.

Lemma occurs_at_drop sub t start j :
  start ≤ length t → occurs_at sub (drop start t) j ↔ occurs_at sub t (start + j).
Proof.
  intros Hs. unfold occurs_at. rewrite length_drop, drop_drop. intuition lia.
Qed.

Lemma find_Some sub t start i :
  find t sub start = Some i →
  start ≤ i ∧ occurs_at sub t i ∧ ∀ j, start ≤ j → j < i → ¬ occurs_at sub t j.
Proof.
  unfold find. case_bool_decide as Hs; [|done].
  destruct (find0 sub (drop start t)) as [i'|] eqn:F; [|done].
  intros [= <-]. destruct (find0_Some _ _ _ F) as [H1 H2].
  split; [lia|]. split; [by apply occurs_at_drop|].
  intros j Hj1 Hj2 Hocc. apply (H2 (j - start)); [lia|].
  apply occurs_at_drop; [done|]. by replace (start + (j - start)) with j by lia.
Qed.

Lemma find_None sub t start j :
  find t sub start = None → start ≤ j → ¬ occurs_at sub t j.
Proof.
  unfold find. case_bool_decide as Hs.
  - destruct (find0 sub (drop start t)) eqn:F; [done|]. intros _ Hj Hocc.
    apply (find0_None _ _ (j - start) F).
    apply occurs_at_drop; [done|]. by replace (start + (j - start)) with j by lia.
  - intros _ Hj [Hocc _]. lia.
Qed.

Lemma find_first sub t start i :
  start ≤ i → occurs_at sub t i →
  (∀ j, start ≤ j → j < i → ¬ occurs_at sub t j) →
  find t sub start = Some i.
Proof.
  intros Hs Hi Hfirst. unfold find.
  assert (start ≤ length t) by (destruct Hi; lia).
  rewrite bool_decide_eq_true_2 by done.
  rewrite (find0_first sub (drop start t) (i - start)).
  - simpl. f_equal. lia.
  - apply occurs_at_drop; [done|]. by replace (start + (i - start)) with i by lia.
  - intros j Hj Hocc. apply occurs_at_drop in Hocc; [|done].
    apply (Hfirst (start + j)); [lia | lia | done].
Qed.

Lemma find_absent sub t start :
  (∀ j, start ≤ j → ¬ occurs_at sub t j) → find t sub start = None.
Proof.
  intros H. destruct (find t sub start) as [i|] eqn:F; [|done].
  destruct (find_Some _ _ _ _ F) as (? & ? & _). by destruct (H i).
Qed.

Lemma contains_false sub t j : contains sub t = false → ¬ occurs_at sub t j.
Proof.
  unfold contains. rewrite bool_decide_eq_false. intros H.
  apply find0_None. destruct (find0 sub t); [|done]. destruct H; eauto.
Qed.

Lemma contains_true sub t j : occurs_at sub t j → contains sub t = true.
Proof.
  intros H. unfold contains. apply bool_decide_eq_true.
  destruct (find0 sub t) eqn:F; [eauto|]. by destruct (find0_None _ _ j F).
Qed.

(** Under ["\n\n" in text[start:]] the search from [start] succeeds. *)
Lemma contains_find sub t start :
  start ≤ length t →
  contains sub (drop start t) = true ↔ is_Some (find t sub start).
Proof.
  intros Hs. unfold contains, find.
  rewrite bool_decide_eq_true, (bool_decide_eq_true_2 (start ≤ length t)) by done.
  by rewrite fmap_is_Some.
Qed.

Lemma occurrences_spec sub t j : j ∈ occurrences sub t ↔ occurs_at sub t j.
Proof.
  revert j. induction t as [|c t IH]; intros j; simpl.
  - rewrite app_nil_r. destruct (startswith sub []) eqn:E.
    + rewrite list_elem_of_singleton. split.
      * intros ->. by apply occurs_at_0.
      * intros [H _]. simpl in H. lia.
    + split; [by intros ?%elem_of_nil|].
      intros [H1 H2]. simpl in H1. assert (j = 0) as -> by lia.
      rewrite drop_0 in H2. apply startswith_prefix in H2. congruence.
  - rewrite elem_of_app, list_elem_of_fmap. destruct j as [|j].
    + rewrite occurs_at_0. split.
      * intros [H|(y & ? & _)]; [|done].
        destruct (startswith sub (c :: t)); [done | by apply elem_of_nil in H].
      * intros ->. left. apply list_elem_of_singleton. done.
    + rewrite occurs_at_S, <- IH. split.
      * intros [H|(y & [= ->] & H)]; [|done].
        destruct (startswith sub (c :: t)).
        -- by apply list_elem_of_singleton in H.
        -- by apply elem_of_nil in H.
      * intros H. right. eauto.
Qed.

(** A text in which [sub] occurs once has it at one index only. *)
Lemma occurrences_once sub t i j :
  length (occurrences sub t) = 1 → occurs_at sub t i → occurs_at sub t j → i = j.
Proof.
  intros Hlen Hi Hj. apply occurrences_spec in Hi, Hj.
  destruct (occurrences sub t) as [|x [|??]]; simplify_eq/=.
  apply list_elem_of_singleton in Hi, Hj. congruence.
Qed.

Lemma occurrences_none sub t j :
  length (occurrences sub t) = 0 → ¬ occurs_at sub t j.
Proof.
  intros Hlen Hj. apply occurrences_spec in Hj.
  destruct (occurrences sub t); [by apply elem_of_nil in Hj | done].
Qed.

End PyStrFacts.

(** ** The extraction loop on a laid out text *)

Module ExtractFacts.
Import PyStr PyStrFacts.

Lemma occurs_NN t j :
  occurs_at NN t j ↔ t !! j = Some nl ∧ t !! (S j) = Some nl.
Proof.
  rewrite occurs_at_lookup. split.
  - intros [_ H]. split.
    + specialize (H 0 ltac:(simpl; lia)). by rewrite Nat.add_0_r in H.
    + specialize (H 1 ltac:(simpl; lia)). by rewrite Nat.add_1_r in H.
  - intros [H0 H1]. split.
    + apply lookup_lt_Some in H0. lia.
    + intros [|[|i]] Hi; simpl in Hi; [| |lia].
      * by rewrite Nat.add_0_r.
      * by rewrite Nat.add_1_r.
Qed.

Lemma occurs_at_shift sub a t q :
  occurs_at sub t q → occurs_at sub (a ++ t) (length a + q).
Proof.
  intros [H1 H2]. split; [rewrite length_app; lia|].
  by rewrite drop_app_add.
Qed.

(** Trailing whitespace does not change what [strip] gives. *)
Lemma lstrip_snoc_space w c :
  isspace c = true →
  lstrip (w ++ [c]) = match lstrip w with [] => [] | _ => lstrip w ++ [c] end.
Proof.
  intros Hc. induction w as [|a w IH]; simpl.
  - by rewrite Hc.
  - destruct (isspace a); [exact IH | done].
Qed.

Lemma rstrip_snoc_space u c : isspace c = true → rstrip (u ++ [c]) = rstrip u.
Proof.
  intros Hc. unfold rstrip. rewrite reverse_app, reverse_singleton. simpl.
  by rewrite Hc.
Qed.

Lemma strip_snoc_space w c : isspace c = true → strip (w ++ [c]) = strip w.
Proof.
  intros Hc. unfold strip. rewrite lstrip_snoc_space by done.
  destruct (lstrip w); [done|]. by apply rstrip_snoc_space.
Qed.

(** A value without blank line, after a key without newline. *)
Lemma key_value_no_blank key v j :
  nl ∉ key ++ colon → contains NN v = false →
  ¬ occurs_at NN (key ++ colon ++ v) j.
Proof.
  intros Hkey Hv [H0 H1]%occurs_NN.
  rewrite (assoc_L (++) key colon v) in H0, H1.
  destruct (decide (j < length (key ++ colon))) as [Hlt|Hge].
  - rewrite lookup_app_l in H0 by done.
    apply Hkey. eapply list_elem_of_lookup_2. exact H0.
  - apply (contains_false _ _ (j - length (key ++ colon)) Hv), occurs_NN.
    rewrite lookup_app_r in H0, H1 by lia. split; [done|].
    by replace (S (j - length (key ++ colon))) with (S j - length (key ++ colon)) by lia.
Qed.

Lemma index_middle key (pre post : list str) :
  key ∉ pre → PyList.index key (pre ++ key :: post) = length pre.
Proof.
  induction pre as [|y pre IH]; intros Hnotin; simpl.
  - by rewrite bool_decide_eq_true_2.
  - apply not_elem_of_cons in Hnotin as [Hne Hnotin].
    rewrite bool_decide_eq_false_2 by done. by rewrite IH.
Qed.

(** The first occurrence from [start] is what [find] returns. *)
Lemma find_le sub t start j :
  start ≤ j → occurs_at sub t j →
  ∃ p, find t sub start = Some p ∧ p ≤ j.
Proof.
  intros Hj Hocc. destruct (find t sub start) as [p|] eqn:F.
  - exists p. split; [done|]. apply find_Some in F as (_ & _ & Hfirst).
    destruct (decide (p ≤ j)); [done|]. destruct (Hfirst j); [done|lia|done].
  - by destruct (find_None _ _ _ j F).
Qed.

(** The scan of the later keys: the smallest position, after [start], of a
    later key with its colon, or the length of the text. *)
Lemma scan_fold_min text start later : ∀ acc,
  let r := foldl (λ next_key_pos next_key,
                    match find text (next_key ++ colon) (start + 1) with
                    | Some next_pos => next_pos `min` next_key_pos
                    | None => next_key_pos
                    end) acc later in
  r ≤ acc
  ∧ (∀ k j, k ∈ later → start < j → occurs_at (k ++ colon) text j → r ≤ j)
  ∧ (r = acc ∨ ∃ k, k ∈ later ∧ occurs_at (k ++ colon) text r ∧ start < r).
Proof.
  induction later as [|k later IH]; intros acc; cbn [foldl].
  - split; [done|]. split; [|by left]. intros k j Hk. by apply elem_of_nil in Hk.
  - set (acc' := match find text (k ++ colon) (start + 1) with
                 | Some next_pos => next_pos `min` acc
                 | None => acc
                 end).
    destruct (IH acc') as (Hle & Hmin & Hatt). cbv zeta.
    assert (acc' ≤ acc) as Hacc'.
    { unfold acc'. destruct (find _ _ _); lia. }
    split; [lia|]. split.
    + intros k' j [->|Hk']%elem_of_cons Hj Hocc; [|by apply (Hmin k')].
      destruct (find_le (k ++ colon) text (start + 1) j) as (p & Hp & Hpj); [lia|done|].
      assert (acc' ≤ p) by (unfold acc'; rewrite Hp; lia). lia.
    + destruct Hatt as [Hr|(k' & Hk' & Hocc & Hlt)].
      * destruct (find text (k ++ colon) (start + 1)) as [p|] eqn:F;
          [|by left].
        destruct (decide (p ≤ acc)).
        -- right. exists k. apply find_Some in F as (? & ? & _).
           assert (acc' = p) as Hp by (unfold acc'; lia). rewrite Hr, Hp.
           split; [left|]. split; [done|lia].
        -- left. assert (acc' = acc) by (unfold acc'; lia). lia.
      * right. exists k'. split; [by right|done].
Qed.

(** Where the value of a label that is found at [start] ends. *)
Lemma extract_step_end text data pos key start :
  find text (key ++ colon) pos = Some start →
  ∃ e,
    extract_step text (data, pos) key
    = (<[key := strip (slice text (start + length key + 1) e)]> data, e)
    ∧ pos ≤ start ∧ start ≤ e ∧ e ≤ length text
    ∧ (∀ j, start ≤ j → occurs_at NN text j → e ≤ j)
    ∧ (∀ k j, k ∈ drop (PyList.index key keys + 1) keys → start < j →
              occurs_at (k ++ colon) text j → e ≤ j)
    ∧ (e = length text ∨ occurs_at NN text e
       ∨ ∃ k, k ∈ drop (PyList.index key keys + 1) keys
              ∧ occurs_at (k ++ colon) text e).
Proof.
  intros Hfind. unfold extract_step. rewrite Hfind.
  pose proof (find_Some _ _ _ _ Hfind) as (Hpos & [Hlen _] & _).
  set (e0 := if contains NN (drop start text)
             then default (length text) (find text NN start) else length text).
  assert (start ≤ e0 ∧ e0 ≤ length text
          ∧ (∀ j, start ≤ j → occurs_at NN text j → e0 ≤ j)
          ∧ (e0 = length text ∨ occurs_at NN text e0)) as (He0 & He0' & Hblank & Hatt0).
  { unfold e0. destruct (contains NN (drop start text)) eqn:E.
    - apply contains_find in E as [p Hp]; [|done]. rewrite Hp. simpl.
      pose proof (find_Some _ _ _ _ Hp) as (? & [? ?] & Hfirst).
      split; [done|]. split; [done|]. split; [|right; by split].
      intros j Hj Hocc. destruct (decide (p ≤ j)); [done|].
      destruct (Hfirst j); [done|lia|done].
    - split; [done|]. split; [done|]. split; [|by left].
      intros j Hj Hocc. destruct (contains_false _ _ (j - start) E).
      apply occurs_at_drop; [done|]. by replace (start + (j - start)) with j by lia. }
  set (later := drop (PyList.index key keys + 1) keys).
  pose proof (scan_fold_min text start later (length text)) as (Hr & Hmin & Hatt).
  fold (next_key_scan text start later) in Hr, Hmin, Hatt.
  set (r := next_key_scan text start later) in *.
  exists (e0 `min` r).
  assert ((if bool_decide (r ≠ length text) then e0 `min` r else e0) = e0 `min` r) as ->.
  { case_bool_decide as Hne; [done|]. lia. }
  split; [done|]. split; [done|].
  assert (start ≤ r) as Hsr.
  { destruct Hatt as [->|(k & _ & _ & ?)]; lia. }
  split; [lia|]. split; [lia|]. split; [|split].
  - intros j Hj Hocc. specialize (Hblank j Hj Hocc). lia.
  - intros k j Hk Hj Hocc. specialize (Hmin k j Hk Hj Hocc). lia.
  - destruct (decide (e0 ≤ r)) as [Hle|Hgt].
    + replace (e0 `min` r) with e0 by lia. destruct Hatt0; [by left | right; by left].
    + replace (e0 `min` r) with r by lia.
      destruct Hatt as [->|(k & Hk & Hocc & _)]; [lia|]. right. right. by exists k.
Qed.

Lemma length_colon : length colon = 1.
Proof. reflexivity. Qed.

(** One round of the loop on a key that the text has at [length a], from a
    cursor at or before it: the value [v] holds no blank line and is
    followed by the end of the text, a blank line or a later key. *)
Lemma extract_step_present text a key v rest data pos pre post :
  text = a ++ (key ++ colon ++ v) ++ rest →
  keys = pre ++ key :: post → key ∉ pre →
  pos ≤ length a →
  (∀ j, occurs_at (key ++ colon) text j → j = length a) →
  nl ∉ key ++ colon →
  contains NN v = false →
  boundary rest || label_ahead post rest = true →
  (∀ k j, k ∈ post → occurs_at (k ++ colon) text j →
          length a + length (key ++ colon ++ v) ≤ j) →
  ∃ e, extract_step text (data, pos) key = (<[key := strip v]> data, e)
       ∧ e ≤ length a + length (key ++ colon ++ v).
Proof.
  intros Htext Hkeys Hpre Hpos Honce Hkey Hv Hrest Hlater.
  assert (occurs_at (key ++ colon) text (length a)) as Hocc.
  { rewrite Htext, <- !(assoc_L (++)), (assoc_L (++) key colon).
    apply occurs_at_app. }
  assert (find text (key ++ colon) pos = Some (length a)) as Hfind.
  { apply find_first; [done|done|]. intros j _ Hj Hoccj. apply Honce in Hoccj. lia. }
  destruct (extract_step_end text data pos key (length a) Hfind)
    as (e & Hstep & _ & Hse & Hel & Hblank & Hscan & Hatt).
  assert (drop (PyList.index key keys + 1) keys = post) as Hpost.
  { rewrite Hkeys, index_middle by done.
    replace (length pre + 1) with (length (pre ++ [key])) by (rewrite length_app; done).
    by rewrite (cons_middle key pre post), (assoc_L (++) pre), drop_app_length. }
  rewrite Hpost in Hscan, Hatt.
  set (kv := key ++ colon ++ v) in *.
  set (E := length a + length kv) in *.
  assert (length kv = length key + 1 + length v) as Hkv.
  { unfold kv. rewrite !length_app, length_colon. lia. }
  assert (length (key ++ colon) = length key + 1) as Hkc.
  { rewrite length_app, length_colon. lia. }
  assert (length text = E + length rest) as Hlen.
  { rewrite Htext, !length_app. unfold E. lia. }
  assert (e ≤ E) as HeE.
  { apply orb_true_iff in Hrest as [Hb|Hl].
    - unfold boundary in Hb. apply orb_true_iff in Hb as [Hnil|Hnn].
      + apply bool_decide_eq_true in Hnil. rewrite Hnil in Hlen. simpl in Hlen. lia.
      + apply startswith_prefix in Hnn as [r Hr].
        apply Hblank; [unfold E; lia|].
        rewrite Htext, Hr, (assoc_L (++) a). unfold E. rewrite <- length_app.
        apply occurs_at_app.
    - unfold label_ahead in Hl. apply existsb_exists in Hl as (k & Hk & Hs).
      apply startswith_prefix in Hs as [r Hr].
      apply (Hscan k); [by apply list_elem_of_In | unfold E; lia |].
      rewrite Htext, Hr, (assoc_L (++) a).
      unfold E. rewrite <- length_app. apply occurs_at_app. }
  assert (e = E ∨ (S e = E ∧ ∃ w, v = w ++ [nl])) as Hcase.
  { destruct (decide (e = E)) as [|Hne]; [by left|]. right.
    destruct Hatt as [Hend|[Hnn|(k & Hk & Hocck)]].
    - lia.
    - apply occurs_NN in Hnn as [H0 H1].
      rewrite Htext in H0, H1. rewrite lookup_app_r in H0, H1 by lia.
      destruct (decide (S e < E)) as [Hin|Hout].
      + destruct (key_value_no_blank key v (e - length a) Hkey Hv).
        apply occurs_NN. fold kv.
        rewrite lookup_app_l in H0 by lia. split; [done|].
        rewrite lookup_app_l in H1 by lia.
        by replace (S (e - length a)) with (S e - length a) by lia.
      + assert (S e = E) as HS by lia. split; [done|].
        rewrite lookup_app_l in H0 by lia.
        destruct v as [|c v0 _] using rev_ind.
        * exfalso. apply Hkey. unfold kv in H0. rewrite app_nil_r in H0.
          eapply list_elem_of_lookup_2. exact H0.
        * exists v0. f_equal. f_equal.
          unfold kv in H0. rewrite !(assoc_L (++)) in H0.
          rewrite length_app in Hkv. simpl in Hkv.
          rewrite lookup_app_r in H0 by (rewrite !length_app, length_colon; simpl; lia).
          replace (e - length a - length ((key ++ colon) ++ v0)) with 0 in H0
            by (rewrite !length_app, length_colon; simpl; lia).
          by injection H0.
    - apply Hlater in Hocck; [|done]. fold kv in Hocck. fold E in Hocck. lia. }
  exists e. split; [|done]. rewrite Hstep.
  assert (strip (slice text (length a + length key + 1) e) = strip v) as ->; [|done].
  unfold slice. rewrite Htext.
  replace (a ++ kv ++ rest) with ((a ++ key ++ colon) ++ v ++ rest)
    by (unfold kv; by rewrite <- !(assoc_L (++))).
  rewrite drop_app_length' by (rewrite !length_app, length_colon; simpl; lia).
  destruct Hcase as [->|[HS (w & ->)]].
  - f_equal. apply take_app_length'. unfold E. lia.
  - rewrite length_app in Hkv. simpl in Hkv.
    rewrite <- (assoc_L (++) w), take_app_length' by lia.
    symmetry. by apply strip_snoc_space.
Qed.

(** One round of the loop on a key that is absent from the cursor on: the
    field is the sentinel and the cursor stays. *)
Lemma extract_step_absent text key data pos :
  find text (key ++ colon) pos = None →
  extract_step text (data, pos) key = (<[key := NA]> data, pos).
Proof. intros H. unfold extract_step. by rewrite H. Qed.

Lemma keys_NoDup : NoDup keys.
Proof. apply (bool_decide_unpack _). vm_compute. exact I. Qed.

Lemma keys_no_newline : Forall (λ key, nl ∉ key ++ colon) keys.
Proof. apply (bool_decide_unpack _). vm_compute. exact I. Qed.

Lemma RAW_not_key : RAW ∉ keys.
Proof. apply (bool_decide_unpack _). vm_compute. exact I. Qed.

Lemma layout_present key ks g v cs tail :
  layout (key :: ks) (Some (g, v) :: cs) tail
  = g ++ key ++ colon ++ v ++ layout ks cs tail.
Proof. reflexivity. Qed.

Lemma layout_absent key ks cs tail :
  layout (key :: ks) (None :: cs) tail = layout ks cs tail.
Proof. reflexivity. Qed.

Lemma well_laid_present key ks g v cs tail :
  well_laid (key :: ks) (Some (g, v) :: cs) tail
  = negb (contains NN v)
    && (boundary (layout ks cs tail) || label_ahead ks (layout ks cs tail))
    && well_laid ks cs tail.
Proof. reflexivity. Qed.

Lemma well_laid_absent key ks cs tail :
  well_laid (key :: ks) (None :: cs) tail = well_laid ks cs tail.
Proof. reflexivity. Qed.

(** A key that is laid out occurs in the layout. *)
Lemma layout_occurs todo cs tail i key g v :
  todo !! i = Some key → cs !! i = Some (Some (g, v)) →
  ∃ q, occurs_at (key ++ colon) (layout todo cs tail) q.
Proof.
  revert cs i. induction todo as [|k0 todo IH]; intros cs i Hk Hc; [done|].
  destruct cs as [|c0 cs]; [done|]. destruct i as [|i].
  - injection Hk as ->. injection Hc as ->. rewrite layout_present.
    exists (length g). rewrite (assoc_L (++) key colon). apply occurs_at_app.
  - destruct (IH cs i Hk Hc) as [q Hq]. destruct c0 as [[g0 v0]|].
    + rewrite layout_present.
      exists (length (g0 ++ k0 ++ colon ++ v0) + q).
      replace (g0 ++ k0 ++ colon ++ v0 ++ layout todo cs tail)
        with ((g0 ++ k0 ++ colon ++ v0) ++ layout todo cs tail)
        by (by rewrite <- !(assoc_L (++))).
      by apply occurs_at_shift.
    + rewrite layout_absent. eauto.
Qed.

(** The loop over the keys still to do, on a text whose rest is laid out. *)
Lemma extract_loop_layout text tail todo : ∀ cs seen p data pos,
  keys = seen ++ todo →
  text = p ++ layout todo cs tail →
  pos ≤ length p →
  well_laid todo cs tail = true →
  labels_once text todo cs →
  let r := foldl (extract_step text) (data, pos) todo in
  (∀ i key c, todo !! i = Some key → cs !! i = Some c →
              r.1 !! key = Some (field_of c))
  ∧ (∀ k, k ∉ todo → r.1 !! k = data !! k).
Proof.
  induction todo as [|key todo IH]; intros cs seen p data pos Hkeys Htext Hpos Hwl Hlab;
    [done|].
  apply Forall2_cons_inv_l in Hlab as (c & cs' & Hc & Hlab & ->).
  pose proof keys_NoDup as Hnd. rewrite Hkeys in Hnd.
  apply NoDup_app in Hnd as (_ & Hseen & [Hkey Hnd]%NoDup_cons).
  assert (key ∉ seen) as Hkd by (intros ?; eapply Hseen; [done | left]).
  assert (nl ∉ key ++ colon) as Hnl.
  { pose proof keys_no_newline as H. rewrite Forall_forall in H. apply H.
    rewrite Hkeys. apply elem_of_app. right. left. }
  assert (keys = (seen ++ [key]) ++ todo) as Hkeys'.
  { by rewrite <- (assoc_L (++)). }
  assert (∃ data' pos' p', extract_step text (data, pos) key = (data', pos')
            ∧ data' = <[key := field_of c]> data
            ∧ text = p' ++ layout todo cs' tail ∧ pos' ≤ length p'
            ∧ well_laid todo cs' tail = true) as (data' & pos' & p' & Hstep & -> & Htext' & Hpos' & Hwl').
  { destruct c as [[g v]|].
    - rewrite layout_present in Htext. rewrite well_laid_present in Hwl.
      apply andb_true_iff in Hwl as [[Hv Hb]%andb_true_iff Hwl].
      apply negb_true_iff in Hv.
      assert (occurs_at (key ++ colon) text (length (p ++ g))) as Hocc.
      { rewrite Htext, (assoc_L (++) p g), (assoc_L (++) key colon).
        apply occurs_at_app. }
      destruct (extract_step_present text (p ++ g) key v (layout todo cs' tail)
                  data pos seen todo) as (e & Hstep & He); try done.
      { rewrite Htext. by rewrite <- !(assoc_L (++)). }
      { rewrite length_app. lia. }
      { intros j Hj. by apply (occurrences_once (key ++ colon) text). }
      { intros k j Hk Hj.
        apply list_elem_of_lookup in Hk as [i Hi].
        destruct (Forall2_lookup_l _ _ _ _ _ Hlab Hi) as (c' & Hc' & Hcount).
        destruct c' as [[g' v']|].
        + destruct (layout_occurs todo cs' tail i k g' v' Hi Hc') as [q Hq].
          apply (occurs_at_shift _ ((p ++ g) ++ key ++ colon ++ v)) in Hq.
          replace (((p ++ g) ++ key ++ colon ++ v) ++ layout todo cs' tail)
            with text in Hq by (rewrite Htext; by rewrite <- !(assoc_L (++))).
          rewrite (occurrences_once _ _ _ _ Hcount Hj Hq).
          rewrite (length_app (p ++ g)). lia.
        + by destruct (occurrences_none _ _ j Hcount). }
      exists (<[key := strip v]> data), e, ((p ++ g) ++ key ++ colon ++ v).
      split; [done|]. split; [done|]. split; [|split; [|done]].
      + rewrite Htext. by rewrite <- !(assoc_L (++)).
      + rewrite (length_app (p ++ g)). lia.
    - rewrite layout_absent in Htext. rewrite well_laid_absent in Hwl.
      eexists _, _, p. split.
      { apply extract_step_absent, find_absent. intros j _.
        by apply occurrences_none. }
      done. }
  cbn [foldl]. rewrite Hstep.
  destruct (IH cs' (seen ++ [key]) p' (<[key := field_of c]> data) pos'
              Hkeys' Htext' Hpos' Hwl' Hlab) as [IH1 IH2].
  split.
  - intros [|i] k c0 Hk Hc0.
    + injection Hk as <-. injection Hc0 as <-.
      rewrite IH2 by done. apply lookup_insert_eq.
    + by apply (IH1 i).
  - intros k [Hne Hk]%not_elem_of_cons.
    rewrite IH2 by done. by apply lookup_insert_ne.
Qed.

(** The report of a laid out text: every key gets its field. *)
Lemma extract_layout cs tail :
  let text := layout keys cs tail in
  well_laid keys cs tail = true →
  labels_once text keys cs →
  (∀ i key c, keys !! i = Some key → cs !! i = Some c →
              extract text !! key = Some (field_of c))
  ∧ extract text !! RAW = Some text.
Proof.
  intros text Hwl Hlab. unfold extract.
  destruct (extract_loop_layout text tail keys cs [] [] {[RAW := text]} 0)
    as [H1 H2]; try done.
  split; [done|].
  rewrite H2 by apply RAW_not_key. apply lookup_singleton_eq.
Qed.

End ExtractFacts.

(** ** The Market Report Extractor *)

Section Extractor.
Import PyStr PyStrFacts ExtractFacts.

Lemma boundary_blank_line g r : boundary ((NN ++ g) ++ r) = true.
Proof.
  unfold boundary. apply orb_true_iff. right. apply startswith_prefix.
  rewrite <- (assoc_L (++)). by apply prefix_app_r.
Qed.

(** A round of the loop writes the entry of its key only. *)
Lemma extract_step_other text data pos key k :
  k ≠ key → (extract_step text (data, pos) key).1 !! k = data !! k.
Proof.
  intros Hne. unfold extract_step.
  destruct (find text (key ++ colon) pos); simpl; by rewrite lookup_insert_ne.
Qed.

Lemma extract_loop_other text ks : ∀ data pos k,
  k ∉ ks → (foldl (extract_step text) (data, pos) ks).1 !! k = data !! k.
Proof.
  induction ks as [|key ks IH]; intros data pos k Hk; [done|].
  apply not_elem_of_cons in Hk as [Hne Hk]. cbn [foldl].
  destruct (extract_step text (data, pos) key) as [data' pos'] eqn:E.
  rewrite IH by done.
  change data' with (data', pos').1. rewrite <- E. by apply extract_step_other.
Qed.

(** C9: on a successful oracle call the raw-text field of the report is the
    oracle's text itself, whatever the four extractions give; and when the
    call fails, the four fields are the sentinel "N/A" and the raw-text field
    is the description [str(e)] of the failure. *)
Theorem raw_output_kept :
  (∀ text, fetch_market_trend (Text text) !! RAW = Some text)
  ∧ (∀ message,
       fetch_market_trend (Fails message) !! RAW = Some message
       ∧ ∀ key, key ∈ keys → fetch_market_trend (Fails message) !! key = Some NA).
Proof.
  split.
  - intros text. unfold fetch_market_trend, extract.
    rewrite extract_loop_other by apply RAW_not_key. apply lookup_singleton_eq.
  - intros message. unfold fetch_market_trend, unavailable. split.
    + apply lookup_insert_eq.
    + intros key Hkey. unfold keys in Hkey.
      repeat (apply elem_of_cons in Hkey as [->|Hkey]);
        [| | | | by apply elem_of_nil in Hkey];
        repeat first [ rewrite lookup_insert_eq; reflexivity
                     | rewrite lookup_singleton_eq; reflexivity
                     | rewrite lookup_insert_ne by (by vm_compute) ].
Qed.

(** The position of an element in a list without duplicates. *)
Lemma index_lookup (l : list str) i x :
  NoDup l → l !! i = Some x → PyList.index x l = i.
Proof.
  revert i. induction l as [|y l IH]; intros i Hnd Hi; [done|].
  apply NoDup_cons in Hnd as [Hy Hnd]. destruct i as [|i]; simpl in *.
  - injection Hi as ->. by rewrite bool_decide_eq_true_2.
  - rewrite bool_decide_eq_false_2.
    + f_equal. by apply IH.
    + intros ->. apply Hy. eapply list_elem_of_lookup_2. exact Hi.
Qed.

(** C7: a text with the four labels in order, each once, every value free of
    blank lines and followed by a blank line (the last one: or by the end of
    the text, which a newline at the end of the value may precede), gives
    each field its value, trimmed; and extracting again from the raw text
    kept in the report gives the same report. *)
Theorem extract_round_trip (pre v1 g1 v2 g2 v3 g3 v4 tail : str) :
  let text :=
    pre ++ py "Market Demand" ++ colon ++ v1 ++ NN ++
    g1 ++ py "Top Skills" ++ colon ++ v2 ++ NN ++
    g2 ++ py "Expected Salary Range" ++ colon ++ v3 ++ NN ++
    g3 ++ py "Aligns with Market Trends" ++ colon ++ v4 ++ tail in
  Forall (λ v, contains NN v = false) [v1; v2; v3; v4] →
  boundary tail = true →
  Forall (λ key, length (occurrences (key ++ colon) text) = 1) keys →
  let report := fetch_market_trend (Text text) in
  report !! py "Market Demand" = Some (strip v1)
  ∧ report !! py "Top Skills" = Some (strip v2)
  ∧ report !! py "Expected Salary Range" = Some (strip v3)
  ∧ report !! py "Aligns with Market Trends" = Some (strip v4)
  ∧ report !! RAW = Some text
  ∧ ∀ raw, report !! RAW = Some raw → fetch_market_trend (Text raw) = report.
Proof.
  intros text Hv Htail Honce report.
  set (cs := [Some (pre, v1); Some (NN ++ g1, v2); Some (NN ++ g2, v3);
              Some (NN ++ g3, v4)]).
  assert (text = layout keys cs tail) as Htext.
  { unfold text, cs, keys. rewrite !layout_present.
    by rewrite <- !(assoc_L (++)). }
  apply Forall_cons in Hv as [Hv1 Hv]. apply Forall_cons in Hv as [Hv2 Hv].
  apply Forall_cons in Hv as [Hv3 Hv]. apply Forall_cons in Hv as [Hv4 _].
  assert (well_laid keys cs tail = true) as Hwl.
  { unfold cs, keys. rewrite !well_laid_present, !layout_present.
    rewrite Hv1, Hv2, Hv3, Hv4.
    rewrite !boundary_blank_line.
    cbn [layout negb andb orb well_laid]. by rewrite Htail. }
  assert (labels_once text keys cs) as Hlab.
  { unfold labels_once, cs. unfold keys in *.
    repeat (apply Forall_cons in Honce as [? Honce]).
    repeat (apply Forall2_cons; split; [done|]). apply Forall2_nil. done. }
  rewrite Htext in Hlab.
  destruct (extract_layout cs tail Hwl Hlab) as [Hfields Hraw].
  rewrite <- Htext in Hfields, Hraw.
  unfold report, fetch_market_trend.
  split; [exact (Hfields 0 _ _ eq_refl eq_refl)|].
  split; [exact (Hfields 1 _ _ eq_refl eq_refl)|].
  split; [exact (Hfields 2 _ _ eq_refl eq_refl)|].
  split; [exact (Hfields 3 _ _ eq_refl eq_refl)|].
  split; [done|].
  intros raw Hr. rewrite Hraw in Hr. by injection Hr as <-.
Qed.

(** The scenario of the specification, and the same text with a newline at
    its end. *)
Lemma extract_round_trip_scenario :
  let report := fetch_market_trend (Text scenario_text) in
  let report' := fetch_market_trend (Text (scenario_text ++ [nl])) in
  (report !! py "Market Demand" = Some (py "high, growing fast")
   ∧ report !! py "Top Skills" = Some (py "Python, SQL")
   ∧ report !! py "Expected Salary Range" = Some (py "60k-120k")
   ∧ report !! py "Aligns with Market Trends" = Some (py "yes, strong fit")
   ∧ report !! RAW = Some scenario_text
   ∧ fetch_market_trend (Text scenario_text) = report)
  ∧ (report' !! py "Market Demand" = Some (py "high, growing fast")
     ∧ report' !! py "Top Skills" = Some (py "Python, SQL")
     ∧ report' !! py "Expected Salary Range" = Some (py "60k-120k")
     ∧ report' !! py "Aligns with Market Trends" = Some (py "yes, strong fit")
     ∧ report' !! RAW = Some (scenario_text ++ [nl])).
Proof.
  split.
  - destruct (extract_round_trip [] (py " high, growing fast") [] (py " Python, SQL")
                [] (py " 60k-120k") [] (py " yes, strong fit") [])
      as (H1 & H2 & H3 & H4 & H5 & H6).
    + repeat constructor; vm_compute; reflexivity.
    + vm_compute; reflexivity.
    + repeat constructor; vm_compute; reflexivity.
    + split; [exact H1|]. split; [exact H2|]. split; [exact H3|].
      split; [exact H4|]. split; [exact H5|]. exact (H6 _ H5).
  - destruct (extract_round_trip [] (py " high, growing fast") [] (py " Python, SQL")
                [] (py " 60k-120k") [] (py " yes, strong fit" ++ [nl]) [])
      as (H1 & H2 & H3 & H4 & H5 & _).
    + repeat constructor; vm_compute; reflexivity.
    + vm_compute; reflexivity.
    + repeat constructor; vm_compute; reflexivity.
    + split; [exact H1|]. split; [exact H2|]. split; [exact H3|].
      split; [exact H4|]. exact H5.
Defined.

(** C8: for every raw text and every label. When the label with its colon
    is not found from the cursor that the loop has on reaching it, its field
    in the report is the sentinel "N/A" and the cursor stays where it is.
    When it is found, at [start], its field is the trimmed text from just
    after the colon to [e], the earliest of the first blank line at or after
    [start], the first later label with its colon after [start], and the end
    of the text; and the cursor moves to [e]. On a text laid out label by
    label, with labels left out, every value free of blank lines and
    followed by a blank line, by a later label or by the end of the text, a
    label left out gets the sentinel and every other label its value,
    trimmed. *)
Theorem missing_label_sentinel text i key :
  keys !! i = Some key →
  let report := fetch_market_trend (Text text) in
  let pos := cursor_before text i in
  (find text (key ++ colon) pos = None →
   report !! key = Some NA ∧ cursor_before text (S i) = pos)
  ∧ (∀ start, find text (key ++ colon) pos = Some start →
       ∃ e, report !! key = Some (strip (slice text (start + length key + 1) e))
            ∧ cursor_before text (S i) = e
            ∧ start ≤ e ∧ e ≤ length text
            ∧ (∀ j, start ≤ j → occurs_at NN text j → e ≤ j)
            ∧ (∀ k j, k ∈ drop (S i) keys → start < j →
                      occurs_at (k ++ colon) text j → e ≤ j)
            ∧ (e = length text ∨ occurs_at NN text e
               ∨ ∃ k, k ∈ drop (S i) keys ∧ occurs_at (k ++ colon) text e))
  ∧ (∀ cs tail c,
       text = layout keys cs tail →
       well_laid keys cs tail = true →
       labels_once text keys cs →
       cs !! i = Some c →
       report !! key = Some (field_of c)).
Proof.
  intros Hkey report pos.
  pose proof keys_NoDup as Hnd.
  assert (drop (PyList.index key keys + 1) keys = drop (S i) keys) as Hidx.
  { by rewrite (index_lookup keys i key Hnd Hkey), Nat.add_1_r. }
  assert (key ∉ drop (S i) keys) as Hlater.
  { rewrite <- (take_drop_middle keys i key Hkey) in Hnd.
    apply NoDup_app in Hnd as (_ & _ & [? _]%NoDup_cons). done. }
  unfold pos, cursor_before.
  rewrite (take_S_r keys i key Hkey), foldl_app. cbn [foldl].
  assert (report !! key
          = (extract_step text
               (foldl (extract_step text) ({[RAW := text]}, 0) (take i keys)) key).1
            !! key) as Hreport.
  { unfold report, fetch_market_trend, extract.
    rewrite <- (take_drop_middle keys i key Hkey) at 1.
    rewrite foldl_app. cbn [foldl].
    destruct (extract_step text _ key) as [data' pos']. by apply extract_loop_other. }
  rewrite Hreport.
  destruct (foldl (extract_step text) ({[RAW := text]}, 0) (take i keys))
    as [data p]. cbn [snd].
  split; [|split].
  - intros Hnone. rewrite extract_step_absent by done.
    split; [apply lookup_insert_eq | done].
  - intros start Hfind.
    destruct (extract_step_end text data p key start Hfind)
      as (e & Hstep & _ & ? & ? & ? & Hscan & Hatt).
    rewrite Hidx in Hscan, Hatt. exists e. rewrite Hstep.
    split; [apply lookup_insert_eq|]. by repeat split.
  - intros cs tail c Htext Hwl Hlab Hc. rewrite <- Hreport. subst text.
    destruct (extract_layout cs tail Hwl Hlab) as [Hfields _].
    exact (Hfields i key c Hkey Hc).
Qed.

(** The scenario text without its "Top Skills" part, and a text with one
    field on each line and no "Top Skills" line. *)
Lemma missing_label_scenario :
  let text := layout keys scenario_chunks_missing [] in
  let report := fetch_market_trend (Text text) in
  let text' := layout keys line_chunks_missing [] in
  let report' := fetch_market_trend (Text text') in
  (report !! py "Top Skills" = Some NA
   ∧ cursor_before text 2 = cursor_before text 1
   ∧ report !! py "Market Demand" = Some (py "high, growing fast")
   ∧ report !! py "Expected Salary Range" = Some (py "60k-120k")
   ∧ report !! py "Aligns with Market Trends" = Some (py "yes, strong fit"))
  ∧ (report' !! py "Top Skills" = Some NA
     ∧ cursor_before text' 2 = cursor_before text' 1
     ∧ report' !! py "Market Demand" = Some (py "high")
     ∧ report' !! py "Expected Salary Range" = Some (py "60k")
     ∧ report' !! py "Aligns with Market Trends" = Some (py "yes")).
Proof.
  intros text report text' report'. split.
  - assert (well_laid keys scenario_chunks_missing [] = true) as Hwl
      by (vm_compute; reflexivity).
    assert (labels_once text keys scenario_chunks_missing) as Hlab
      by (repeat constructor; vm_compute; reflexivity).
    destruct (missing_label_sentinel text 1 (py "Top Skills") eq_refl)
      as (Habsent & _ & _).
    destruct Habsent as [Hna Hcur]; [vm_compute; reflexivity|].
    split; [exact Hna|]. split; [exact Hcur|].
    split; [|split].
    + exact (proj2 (proj2 (missing_label_sentinel text 0 (py "Market Demand") eq_refl))
               scenario_chunks_missing [] _ eq_refl Hwl Hlab eq_refl).
    + exact (proj2 (proj2 (missing_label_sentinel text 2 (py "Expected Salary Range")
                             eq_refl))
               scenario_chunks_missing [] _ eq_refl Hwl Hlab eq_refl).
    + exact (proj2 (proj2 (missing_label_sentinel text 3 (py "Aligns with Market Trends")
                             eq_refl))
               scenario_chunks_missing [] _ eq_refl Hwl Hlab eq_refl).
  - assert (well_laid keys line_chunks_missing [] = true) as Hwl
      by (vm_compute; reflexivity).
    assert (labels_once text' keys line_chunks_missing) as Hlab
      by (repeat constructor; vm_compute; reflexivity).
    destruct (missing_label_sentinel text' 1 (py "Top Skills") eq_refl)
      as (Habsent & _ & _).
    destruct Habsent as [Hna Hcur]; [vm_compute; reflexivity|].
    split; [exact Hna|]. split; [exact Hcur|].
    split; [|split].
    + exact (proj2 (proj2 (missing_label_sentinel text' 0 (py "Market Demand") eq_refl))
               line_chunks_missing [] _ eq_refl Hwl Hlab eq_refl).
    + exact (proj2 (proj2 (missing_label_sentinel text' 2 (py "Expected Salary Range")
                             eq_refl))
               line_chunks_missing [] _ eq_refl Hwl Hlab eq_refl).
    + exact (proj2 (proj2 (missing_label_sentinel text' 3 (py "Aligns with Market Trends")
                             eq_refl))
               line_chunks_missing [] _ eq_refl Hwl Hlab eq_refl).
Defined.

End Extractor.

(** ** The Question Selector *)

Lemma selector_returns history remaining response :
  ∃ q, get_next_question_from_gemini history remaining response = Returned q
       ∧ (remaining ≠ [] → q ∈ remaining)
       ∧ (remaining = [] → q = other_interests).
Proof.
  unfold get_next_question_from_gemini, selector_try.
  destruct response as [text|message].
  - case_bool_decide as Hin.
    + eexists. split; [done|]. split; [done|]. intros ->. by apply elem_of_nil in Hin.
    + destruct remaining as [|q0 rest]; eexists; (split; [done|]); split; try done.
      intros _. left.
  - destruct remaining as [|q0 rest]; eexists; (split; [done|]); split; try done.
    intros _. left.
Qed.

(** C5: on a non-empty pool the selector returns the oracle's trimmed
    response when that is, character for character, one of the questions of
    the pool, and the first question of the pool otherwise, also when the
    oracle call fails. *)
Theorem selector_fallback history q0 rest response :
  get_next_question_from_gemini history (q0 :: rest) response
  = Returned (match response with
              | Text text =>
                  if bool_decide (PyStr.strip text ∈ q0 :: rest)
                  then PyStr.strip text else q0
              | Fails _ => q0
              end).
Proof.
  unfold get_next_question_from_gemini, selector_try.
  destruct response as [text|message]; [|done]. by case_bool_decide.
Qed.

(** C10: the selector returns to its caller on every history, pool and
    oracle behaviour; on the empty pool it returns the fixed question "Do you
    have any other interests?", which is not in the pool: the [IndexError]
    of [remaining_questions[0]] is raised inside the [try] block, as an
    oracle failure is, and the one handler catches both. *)
Theorem selector_never_raises history remaining response :
  (∃ q, get_next_question_from_gemini history remaining response = Returned q)
  ∧ get_next_question_from_gemini history [] response = Returned other_interests
  ∧ (other_interests ∉ ([] : list str))
  ∧ (∀ text, selector_try [] (Text text) = Raised IndexError)
  ∧ (∀ message, selector_try [] (Fails message) = Raised OracleError).
Proof.
  split; [|split; [|split; [|split]]].
  - destruct (selector_returns history remaining response) as (q & Hq & _). eauto.
  - destruct (selector_returns history [] response) as (q & Hq & _ & Hnil).
    by rewrite Hq, Hnil.
  - apply not_elem_of_nil.
  - intros text. unfold selector_try.
    rewrite bool_decide_eq_false_2; [done | apply not_elem_of_nil].
  - done.
Qed.

(** ** The rounds of the interview *)

Section Rounds.
Context (questions : list QuestionRecord) (oracle : nat → reply)
        (answers : nat → str) (start_id : str) (min_questions : nat).

(** What a call of the selector from the loop changes. *)
Lemma select_spec s :
  ∃ q, select oracle s =
         Returned
         (q, {| history := history s; asked_ids := asked_ids s;
                remaining_questions := remaining_questions s;
                current_id := current_id s; asked_count := asked_count s;
                use_csv_branching := use_csv_branching s;
                oracle_calls := S (oracle_calls s);
                trace := trace s ++ [EvSelect (remaining_questions s) q] |})
       ∧ (remaining_questions s ≠ [] → q ∈ remaining_questions s).
Proof.
  destruct (selector_returns (history s) (remaining_questions s)
              (oracle (oracle_calls s))) as (q & Hq & Hin & _).
  exists q. unfold select. by rewrite Hq.
Qed.

(** What the oracle's pick changes: the identifier, the asked identifiers,
    the count of oracle calls and the events. *)
Lemma oracle_pick_spec s :
  (remaining_questions s = [] ∧ oracle_pick questions oracle s = Returned None)
  ∨ (∃ q s', oracle_pick questions oracle s = Returned (Some (q, s'))
       ∧ q ∈ remaining_questions s
       ∧ history s' = history s
       ∧ remaining_questions s' = remaining_questions s
       ∧ asked_count s' = asked_count s
       ∧ use_csv_branching s' = use_csv_branching s
       ∧ current_id s' = QuestionID <$> head (rows_by_text questions q)
       ∧ asked_ids s ⊆ asked_ids s'
       ∧ trace s' = trace s ++ [EvSelect (remaining_questions s) q]).
Proof.
  unfold oracle_pick.
  destruct (remaining_questions s) as [|q0 rest] eqn:Hrem; [by left|right].
  destruct (select_spec s) as (q & -> & Hin). rewrite Hrem in Hin.
  exists q. eexists. split; [done|]. split; [by apply Hin|].
  unfold adopt. destruct (head (rows_by_text questions q)) as [r|]; simpl.
  - destruct (QuestionID r); simpl; rewrite ?Hrem; repeat split; try done.
    set_solver.
  - rewrite ?Hrem. done.
Qed.

Lemma same_turn_refl s : same_turn s s.
Proof. by repeat split. Qed.

(** The oracle's pick: nothing when the pool is empty, else a question of
    the pool. *)
Lemma oracle_pick_cases s :
  match oracle_pick questions oracle s with
  | Returned None => remaining_questions s = []
  | Returned (Some (q, s')) =>
      q ∈ remaining_questions s ∧ same_turn s s'
      ∧ use_csv_branching s' = use_csv_branching s
      ∧ current_id s' = QuestionID <$> head (rows_by_text questions q)
      ∧ trace s' = trace s ++ [EvSelect (remaining_questions s) q]
  | Raised _ => False
  end.
Proof.
  destruct (oracle_pick_spec s)
    as [[? ->]|(q & s' & -> & ? & ? & ? & ? & ? & ? & ? & ?)]; [done|].
  by repeat split.
Qed.

Lemma set_branching_id s :
  use_csv_branching s = false → set_branching false s = s.
Proof. destruct s; cbn. by intros ->. Qed.

Lemma choose_branching s :
  use_csv_branching s = true → asked_count s < 5 →
  choose questions oracle s =
    match rows_by_id questions (current_id s) with
    | [] =>
        '(q, s') ← select oracle (set_branching false s);
        mret (inl (q, None, set_current_id None s'))
    | row :: _ =>
        mret (inl (Question row, Some (NextIfYes row, NextIfNo row),
                   match current_id s with
                   | Some i => add_asked_id i s
                   | None => s
                   end))
    end.
Proof.
  intros Hb Hn. unfold choose.
  rewrite bool_decide_eq_false_2 by lia. by rewrite Hb.
Qed.

Lemma choose_oracle s :
  use_csv_branching s = false ∨ 5 ≤ asked_count s →
  choose questions oracle s =
    pick ← oracle_pick questions oracle (set_branching false s);
    mret (match pick with
          | Some (q, s') => inl (q, None, s')
          | None => inr (log EvNoMore (set_branching false s))
          end).
Proof.
  intros Hmode. unfold choose. case_bool_decide as Hn; [done|].
  destruct Hmode as [Hb|?]; [|done]. by rewrite Hb, set_branching_id.
Qed.

(** The first half of a round: the loop is left on an empty pool in oracle
    mode; or a question comes from the table, in branching mode; or it comes
    from the selector. *)
Lemma choose_spec s :
  let branching := use_csv_branching s && bool_decide (asked_count s < 5) in
  match choose questions oracle s with
  | Raised _ => False
  | Returned (inr s') =>
      branching = false ∧ remaining_questions s = []
      ∧ s' = log EvNoMore (set_branching false s)
  | Returned (inl (q, Some (next_yes, next_no), s1)) =>
      branching = true
      ∧ ∃ c row rest,
          current_id s = Some c
          ∧ rows_by_id questions (Some c) = row :: rest
          ∧ q = Question row ∧ next_yes = NextIfYes row ∧ next_no = NextIfNo row
          ∧ s1 = add_asked_id c s
  | Returned (inl (q, None, s1)) =>
      same_turn s s1
      ∧ use_csv_branching s1 = false
      ∧ trace s1 = trace s ++ [EvSelect (remaining_questions s) q]
      ∧ (remaining_questions s ≠ [] → q ∈ remaining_questions s)
      ∧ (remaining_questions s = [] ∨ branching = true →
         branching = true ∧ rows_by_id questions (current_id s) = [])
  end.
Proof.
  intros branching. unfold branching.
  destruct (use_csv_branching s && bool_decide (asked_count s < 5)) eqn:Hmode.
  - apply andb_true_iff in Hmode as [Hb Hn%bool_decide_eq_true].
    rewrite choose_branching by done.
    destruct (rows_by_id questions (current_id s)) as [|row rest] eqn:Hrows.
    + destruct (select_spec (set_branching false s)) as (q & -> & Hin).
      cbn in *. by repeat split.
    + destruct (current_id s) as [c|] eqn:Hc; [|done].
      split; [done|]. by exists c, row, rest.
  - rewrite choose_oracle.
    2:{ apply andb_false_iff in Hmode as [?|Hn%bool_decide_eq_false]; [by left|right; lia]. }
    pose proof (oracle_pick_cases (set_branching false s)) as Hpick.
    destruct (oracle_pick _ _ _) as [[[q s']|]|e]; cbn in *.
    + destruct Hpick as (Hq & Hsame & Hb & _ & Htr).
      split; [done|]. split; [done|]. split; [done|]. split; [done|].
      intros [Hnil|?]; [|done]. rewrite Hnil in Hq. by apply elem_of_nil in Hq.
    + done.
    + done.
Qed.

(** A round whose question comes from the selector is in oracle mode. *)
Lemma choose_no_targets s q s1 :
  choose questions oracle s = Returned (inl (q, None, s1)) →
  use_csv_branching s1 = false.
Proof.
  intros Hchoose. pose proof (choose_spec s) as H. rewrite Hchoose in H.
  cbv zeta in H. tauto.
Qed.

(** The second half of a round: the branch target is taken; or the oracle
    picks the question of the next round; or the loop is left on an empty
    pool. The round stays in branching mode with the target only (or, on an
    empty identifier, with the oracle's pick). *)
Lemma advance_spec answer targets s :
  let off := use_csv_branching s && truthy (current_id s) && bool_decide (is_Some targets) in
  match advance questions oracle answer targets s with
  | Abort _ => False
  | Continue s' =>
      (∃ next_yes next_no next_id,
          targets = Some (next_yes, next_no) ∧ off = true
          ∧ next_id = (if bool_decide (answer = py "yes") then next_yes else next_no)
          ∧ valid_next questions next_id s = true
          ∧ s' = set_current_id (Some next_id) s)
      ∨ (same_turn s s'
         ∧ use_csv_branching s' = use_csv_branching s && negb off
         ∧ ∃ q, q ∈ remaining_questions s
                ∧ current_id s' = QuestionID <$> head (rows_by_text questions q)
                ∧ trace s' = trace s ++ [EvSelect (remaining_questions s) q])
  | Break s' =>
      remaining_questions s = [] ∧ same_turn s s'
      ∧ use_csv_branching s' = use_csv_branching s && negb off
      ∧ trace s' = trace s ++ [EvNoMore]
  end.
Proof.
  intros off. subst off. unfold advance.
  assert (∀ s0,
    match pick_next questions oracle s0 with
    | Abort _ => False
    | Continue s' =>
        same_turn s0 s' ∧ use_csv_branching s' = use_csv_branching s0
        ∧ ∃ q, q ∈ remaining_questions s0
               ∧ current_id s' = QuestionID <$> head (rows_by_text questions q)
               ∧ trace s' = trace s0 ++ [EvSelect (remaining_questions s0) q]
    | Break s' =>
        remaining_questions s0 = [] ∧ s' = log EvNoMore s0
    end) as Hnext.
  { intros s0. unfold pick_next. pose proof (oracle_pick_cases s0) as Hpick.
    destruct (oracle_pick _ _ _) as [[[q s']|]|e]; [|done|done].
    destruct Hpick as (Hq & Hsame & Hb & Hid & Htr).
    split; [done|]. split; [done|]. by exists q. }
  destruct targets as [[next_yes next_no]|].
  - rewrite (bool_decide_eq_true_2 (is_Some _)) by eauto. rewrite andb_true_r.
    destruct (use_csv_branching s && truthy (current_id s)) eqn:Hmode.
    + destruct (valid_next _ _ _) eqn:Hvalid.
      * left. eexists next_yes, next_no, _. by repeat split.
      * specialize (Hnext (set_branching false s)).
        destruct (pick_next _ _ _) as [s'|s'|e]; cbn in *; [| |done].
        -- destruct Hnext as (Hsame & Hb & q & Hq & Hid & Htr). right.
           split; [done|]. split; [by rewrite andb_false_r|]. by exists q.
        -- destruct Hnext as [Hnil ->]. rewrite andb_false_r.
           split; [done|]. split; [by repeat split|done].
    + specialize (Hnext s).
      destruct (pick_next _ _ _) as [s'|s'|e]; cbn in *; [| |done].
      * destruct Hnext as (Hsame & Hb & q & Hq & Hid & Htr). right.
        split; [done|]. split; [by rewrite andb_true_r|]. by exists q.
      * destruct Hnext as [Hnil ->]. rewrite andb_true_r.
        split; [done|]. split; [by repeat split|done].
  - rewrite (bool_decide_eq_false_2 (is_Some _)) by (by intros [? ?]).
    rewrite !andb_false_r, andb_true_r.
    specialize (Hnext s).
    destruct (pick_next _ _ _) as [s'|s'|e]; cbn in *; [| |done].
    + destruct Hnext as (Hsame & Hb & q & Hq & Hid & Htr). right.
      split; [done|]. split; [done|]. by exists q.
    + destruct Hnext as [Hnil ->]. split; [done|]. split; [by repeat split|done].
Qed.

(** The cases of a round, from [choose_spec] and [advance_spec]: the
    question [q] with the state [s1] before it is put, the answer [a] and the
    state after the answer is recorded. *)
Ltac round_cases s :=
  unfold loop_body;
  let Hch := fresh "Hch" in
  pose proof (choose_spec s) as Hch; cbv zeta in Hch;
  destruct (choose questions oracle s) as [[[[q [[next_yes next_no]|]] s1]|s0]|e];
  [ | | | destruct Hch ];
  [ let Hadv := fresh "Hadv" in
    pose proof (advance_spec (read_answer (answers (asked_count s1)))
                  (Some (next_yes, next_no))
                  (record_answer q (read_answer (answers (asked_count s1))) s1)) as Hadv;
    cbv zeta in Hadv;
    destruct Hch as (Hmode & c & row & rest & Hcid & Hrows & -> & -> & -> & ->);
    apply andb_true_iff in Hmode as [Hb Hn%bool_decide_eq_true];
    destruct (advance questions oracle _ _ _) as [s'|s'|e];
    [ destruct Hadv as [(ny & nn & next_id & Heq & Hoff & -> & Hvalid & ->)
                       |((Hh & Hr & Hc & Hi) & Hb' & q' & Hq' & Hid & Htr)]
    | destruct Hadv as (Hnil & (Hh & Hr & Hc & Hi) & Hb' & Htr)
    | destruct Hadv ]
  | let Hadv := fresh "Hadv" in
    pose proof (advance_spec (read_answer (answers (asked_count s1))) None
                  (record_answer q (read_answer (answers (asked_count s1))) s1)) as Hadv;
    cbv zeta in Hadv;
    destruct Hch as ((Hh1 & Hr1 & Hc1 & Hi1) & Hb1 & Htr1 & Hq & Hmiss);
    destruct (advance questions oracle _ _ _) as [s'|s'|e];
    [ destruct Hadv as [(ny & nn & next_id & Heq & _)
                       |((Hh & Hr & Hc & Hi) & Hb' & q' & Hq' & Hid & Htr)];
      [ discriminate Heq | ]
    | destruct Hadv as (Hnil & (Hh & Hr & Hc & Hi) & Hb' & Htr)
    | destruct Hadv ]
  | destruct Hch as (Hmode & Hnil & ->) ];
  cbn in *.

(** What every round does to the count, the mode and the pool. *)
Lemma round_basic s :
  match loop_body questions oracle answers s with
  | Continue s' =>
      asked_count s' = asked_count s + 1
      ∧ (use_csv_branching s' = true →
         use_csv_branching s = true ∧ asked_count s < 5)
      ∧ (use_csv_branching s' = false → remaining_questions s' ≠ [])
  | Break s' =>
      remaining_questions s' = []
      ∧ (use_csv_branching s' = true →
         use_csv_branching s = true ∧ asked_count s < 5)
      ∧ last (trace s') = Some EvNoMore
      ∧ asked_count s ≤ asked_count s' ≤ asked_count s + 1
  | Abort _ => False
  end.
Proof.
  round_cases s.
  - split; [done|]. split; [done|]. congruence.
  - rewrite Hc, Hr, Hb'. split; [done|]. split.
    + rewrite Hb. intros [_ Hoff]%andb_true_iff. done.
    + intros _ Hnil. rewrite Hnil in Hq'. by apply elem_of_nil in Hq'.
  - rewrite Hr, Hb', Htr, Hc, last_snoc. split; [done|]. split; [|split; [done|lia]].
    by intros [? _]%andb_true_iff.
  - rewrite Hc, Hr, Hb', Hb1, Hc1. split; [done|]. split; [done|].
    intros _ Hnil. rewrite Hnil in Hq'. by apply elem_of_nil in Hq'.
  - rewrite Hr, Hb', Hb1, Htr, Hc, Hc1, last_snoc. split; [done|]. split; [done|].
    split; [done|lia].
  - rewrite last_snoc. split; [done|]. split; [done|]. split; [done|lia].
Qed.

(** *** The loop *)

(** The loop is left within [min_questions - asked_count] rounds. *)
Lemma loop_total fuel s :
  min_questions - asked_count s ≤ fuel →
  ∃ s', loop questions oracle answers min_questions fuel s = Some (Returned s').
Proof.
  revert s. induction fuel as [|fuel IH]; intros s Hfuel; simpl.
  - rewrite bool_decide_eq_false_2 by lia. eauto.
  - case_bool_decide as Hlt; [|eauto].
    pose proof (round_basic s) as Hround.
    destruct (loop_body questions oracle answers s) as [s'|s'|e]; [|eauto|done].
    apply IH. destruct Hround as [-> _]. lia.
Qed.

(** The state in which the loop is left comes after rounds that continue. *)
Lemma loop_run fuel s s' :
  loop questions oracle answers min_questions fuel s = Some (Returned s') →
  ∃ s1, rtc (continues questions oracle answers min_questions) s s1
        ∧ leaves questions oracle answers min_questions s1 s'.
Proof.
  revert s. induction fuel as [|fuel IH]; intros s; simpl.
  - case_bool_decide as Hlt; [done|]. intros [= <-].
    exists s. split; [done|]. left. split; [lia|done].
  - case_bool_decide as Hlt.
    + destruct (loop_body questions oracle answers s) as [s1|s1|e] eqn:Hbody.
      * intros (s2 & Hrtc & Hleaves)%IH. exists s2. split; [|done].
        eapply rtc_l; [|done]. by split.
      * intros [= <-]. exists s. split; [done|]. right. by split.
      * done.
    + intros [= <-]. exists s. split; [done|]. left. split; [lia|done].
Qed.

(** A property of the rounds holds at every head of the loop. *)
Lemma continues_invariant (P : state → Prop) s s' :
  (∀ s s', P s → loop_body questions oracle answers s = Continue s' → P s') →
  rtc (continues questions oracle answers min_questions) s s' → P s → P s'.
Proof.
  intros Hstep Hrtc. induction Hrtc as [|s s1 s2 [_ Hbody] _ IH]; [done|].
  intros Hs. apply IH. by eapply Hstep.
Qed.

(** The events tell the history: the questions put, with their answers. *)
Lemma round_history s :
  asked (trace s) = history s ∧ length (history s) = asked_count s →
  match loop_body questions oracle answers s with
  | Continue s' | Break s' =>
      asked (trace s') = history s' ∧ length (history s') = asked_count s'
  | Abort _ => False
  end.
Proof.
  intros [Htrace Hlen]. unfold asked in *.
  round_cases s.
  - rewrite omap_app, length_app, Htrace, Hlen. done.
  - rewrite Hh, Hc, Htr, !omap_app, length_app, Htrace, Hlen. cbn.
    by rewrite app_nil_r.
  - rewrite Hh, Hc, Htr, !omap_app, length_app, Htrace, Hlen. cbn.
    by rewrite app_nil_r.
  - rewrite Hh, Hc, Htr, Htr1, Hh1, Hc1, !omap_app, length_app, Htrace, Hlen. cbn.
    by rewrite !app_nil_r.
  - rewrite Hh, Hc, Htr, Htr1, Hh1, Hc1, !omap_app, length_app, Htrace, Hlen. cbn.
    by rewrite !app_nil_r.
  - rewrite omap_app. cbn. by rewrite app_nil_r.
Qed.

Lemma rows_by_id_elem i :
  i ∈ QuestionID <$> questions → rows_by_id questions (Some i) ≠ [].
Proof.
  intros (r & -> & Hr)%list_elem_of_fmap. unfold rows_by_id.
  intros Hnil. assert (r ∈ filter (λ r', QuestionID r' = QuestionID r) questions) as Hin.
  { by apply list_elem_of_filter. }
  rewrite Hnil in Hin. by apply elem_of_nil in Hin.
Qed.

(** *** The selector is called on non-empty pools *)

Lemma round_selects_well s :
  selects_well questions s →
  match loop_body questions oracle answers s with
  | Continue s' => selects_well questions s'
  | Break s' => Forall (λ pool, pool ≠ []) (pools (trace s'))
  | Abort _ => False
  end.
Proof.
  intros [Hj Hpools]. unfold selects_well, pools in *.
  assert (∀ q l, q ∈ l → l ≠ ([] : list str)) as Hne.
  { intros q l Hq ->. by apply elem_of_nil in Hq. }
  round_cases s.
  - split.
    + intros _. right. apply rows_by_id_elem.
      unfold valid_next in Hvalid. apply andb_true_iff in Hvalid as [Hv _].
      apply andb_true_iff in Hv as [_ Hv]. by apply bool_decide_eq_true in Hv.
    + rewrite omap_app. cbn. by rewrite app_nil_r.
  - split.
    + intros _. left. rewrite Hr. by eapply Hne.
    + rewrite Htr, !omap_app. cbn. rewrite app_nil_r.
      apply Forall_app. split; [done|]. apply Forall_singleton. by eapply Hne.
  - rewrite Htr, !omap_app. cbn. by rewrite !app_nil_r.
  - assert (remaining_questions s ≠ []) as Hrem.
    { intros Hnil. destruct Hmiss as [Hm Hrows]; [by left|].
      apply andb_true_iff in Hm as [Hm _].
      destruct (Hj Hm); done. }
    split.
    + rewrite Hb', Hb1. done.
    + rewrite Htr, Htr1, !omap_app. cbn. rewrite app_nil_r.
      apply Forall_app. split; [apply Forall_app; split; [done|by apply Forall_singleton]|].
      apply Forall_singleton. by eapply Hne.
  - assert (remaining_questions s ≠ []) as Hrem.
    { intros Hnil'. destruct Hmiss as [Hm Hrows]; [by left|].
      apply andb_true_iff in Hm as [Hm _].
      destruct (Hj Hm); done. }
    rewrite Htr, Htr1, !omap_app. cbn. rewrite !app_nil_r.
    apply Forall_app. split; [done|by apply Forall_singleton].
  - rewrite omap_app. cbn. by rewrite app_nil_r.
Qed.

(** *** No question twice *)

Lemma remove_perm (q : str) (l : list str) : q ∈ l → q :: PyList.remove q l ≡ₚ l.
Proof.
  induction l as [|y l IH]; intros Hq; [by apply elem_of_nil in Hq|]. simpl.
  case_bool_decide as Hy; [by subst|].
  apply elem_of_cons in Hq as [->|Hq]; [done|].
  rewrite Permutation_swap. f_equiv. by apply IH.
Qed.

Lemma unique_NoDup (l : list str) : NoDup l → PyList.unique l = l.
Proof.
  induction 1 as [|x l Hx Hnd IH]; [done|]. simpl. rewrite IH. f_equal.
  clear IH Hnd. induction l as [|y l IH]; [done|].
  apply not_elem_of_cons in Hx as [Hne Hx].
  rewrite filter_cons_True by done. f_equal. by apply IH.
Qed.

Lemma unique_nonempty (l : list str) : l ≠ [] → PyList.unique l ≠ [].
Proof. by destruct l. Qed.

Lemma rows_by_id_head c row rest :
  rows_by_id questions (Some c) = row :: rest → row ∈ questions ∧ QuestionID row = c.
Proof.
  unfold rows_by_id. intros Hrows.
  assert (row ∈ filter (λ r, QuestionID r = c) questions) as Hin.
  { rewrite Hrows. left. }
  by apply list_elem_of_filter in Hin as [? ?].
Qed.

(** Recording the answer to a question of the pool keeps the questions
    asked and the questions of the pool together as they were. *)
Lemma record_perm (h : list (str * str)) rem q a :
  q ∈ rem →
  (h ++ [(q, a)]).*1 ++ (if bool_decide (q ∈ rem) then PyList.remove q rem else rem)
  ≡ₚ h.*1 ++ rem.
Proof.
  intros Hq. rewrite bool_decide_eq_true_2 by done.
  rewrite fmap_app, <- (assoc_L (++)). cbn. f_equiv. by apply remove_perm.
Qed.

Section Fresh.
Hypothesis Htexts : NoDup (Question <$> questions).
Hypothesis Hids : Forall (λ r, QuestionID r ≠ []) questions.
Hypothesis Htable : questions ≠ [].

(** The question of the row reached by branching is still in the pool. *)
Lemma branch_question_fresh s c row rest :
  fresh_texts questions s → use_csv_branching s = true →
  current_id s = Some c → rows_by_id questions (Some c) = row :: rest →
  Question row ∈ remaining_questions s.
Proof.
  intros [Hperm Hbranch] Hb Hcid Hrows.
  destruct (Hbranch Hb) as (c' & Hc' & Hnew & _ & Hrow).
  rewrite Hcid in Hc'. injection Hc' as <-.
  apply rows_by_id_head in Hrows as [Hrow_in Hrow_id].
  assert (Question row ∈ (history s).*1 ++ remaining_questions s) as Hin.
  { rewrite Hperm. apply list_elem_of_fmap. eauto. }
  apply elem_of_app in Hin as [Hin|Hin]; [|done]. exfalso.
  destruct (Hrow _ Hin) as (r & Hr & Hq & Hasked).
  assert (r = row) as ->; [|congruence].
  apply list_elem_of_lookup in Hr as [i Hi], Hrow_in as [j Hj].
  assert (i = j) as ->; [|congruence].
  apply (NoDup_lookup _ i j (Question row) Htexts);
    rewrite list_lookup_fmap; [rewrite Hi|rewrite Hj]; cbn; congruence.
Qed.

Lemma row_truthy c row rest :
  rows_by_id questions (Some c) = row :: rest → truthy (Some c) = true.
Proof.
  intros [Hin <-]%rows_by_id_head. rewrite Forall_forall in Hids.
  specialize (Hids _ Hin). by destruct (QuestionID row).
Qed.

Lemma round_fresh s :
  fresh_texts questions s →
  match loop_body questions oracle answers s with
  | Continue s' | Break s' => fresh_texts questions s'
  | Abort _ => False
  end.
Proof.
  intros Hfresh. pose proof Hfresh as [Hperm Hbranch]. unfold fresh_texts.
  round_cases s.
  - pose proof (branch_question_fresh s c row rest Hfresh Hb Hcid Hrows) as Hq.
    split; [rewrite record_perm by done; done|]. intros _.
    destruct (Hbranch Hb) as (c' & Hc' & Hnew & _ & Hrow).
    unfold valid_next in Hvalid. cbn in Hvalid.
    apply andb_true_iff in Hvalid as [[_ Hv1%bool_decide_eq_true]%andb_true_iff
                                       Hv2%bool_decide_eq_true].
    eexists. split; [done|]. split; [done|]. split; [by right|].
    intros q0. rewrite fmap_app. intros [Hq0|Hq0]%elem_of_app.
    + destruct (Hrow _ Hq0) as (r & ? & ? & ?). exists r.
      split; [done|]. split; [done|]. apply elem_of_union. by right.
    + cbn in Hq0. apply list_elem_of_singleton in Hq0 as ->.
      apply rows_by_id_head in Hrows as [? ?]. exists row.
      split; [done|]. split; [done|]. apply elem_of_union. left.
      by apply elem_of_singleton.
  - pose proof (branch_question_fresh s c row rest Hfresh Hb Hcid Hrows) as Hq.
    rewrite Hh, Hr, Hb', Hb, Hcid, (row_truthy c row rest Hrows).
    split; [rewrite record_perm by done; done|]. done.
  - pose proof (branch_question_fresh s c row rest Hfresh Hb Hcid Hrows) as Hq.
    rewrite Hh, Hr, Hb', Hb, Hcid, (row_truthy c row rest Hrows).
    split; [rewrite record_perm by done; done|]. done.
  - assert (q ∈ remaining_questions s) as Hq0.
    { apply Hq. intros Hnil. destruct Hmiss as [Hm Hrows]; [by left|].
      apply andb_true_iff in Hm as [Hm _].
      destruct (Hbranch Hm) as (c0 & Hc0 & _ & [Hh0|Hin] & _).
      - rewrite Hh0, Hnil in Hperm. cbn in Hperm.
        apply Permutation_nil_l in Hperm. symmetry in Hperm.
        apply fmap_nil_inv in Hperm. done.
      - rewrite Hc0 in Hrows. by apply rows_by_id_elem in Hin. }
    rewrite Hh, Hr, Hb', Hb1, Hh1, Hr1.
    split; [rewrite record_perm by done; done|]. done.
  - assert (q ∈ remaining_questions s) as Hq0.
    { apply Hq. intros Hnil'. destruct Hmiss as [Hm Hrows]; [by left|].
      apply andb_true_iff in Hm as [Hm _].
      destruct (Hbranch Hm) as (c0 & Hc0 & _ & [Hh0|Hin] & _).
      - rewrite Hh0, Hnil' in Hperm. cbn in Hperm.
        apply Permutation_nil_l in Hperm. symmetry in Hperm.
        apply fmap_nil_inv in Hperm. done.
      - rewrite Hc0 in Hrows. by apply rows_by_id_elem in Hin. }
    rewrite Hh, Hr, Hb', Hb1, Hh1, Hr1.
    split; [rewrite record_perm by done; done|]. done.
  - done.
Qed.

End Fresh.

(** *** The interview as a whole *)

Lemma ask_questions_run :
  ∃ final s1,
    ask_questions questions oracle answers start_id min_questions
    = Some (Returned final)
    ∧ reachable questions oracle answers start_id min_questions s1
    ∧ leaves questions oracle answers min_questions s1 final.
Proof.
  destruct (loop_total min_questions (initial questions start_id)) as [final Hfinal];
    [lia|].
  destruct (loop_run _ _ _ Hfinal) as (s1 & Hrtc & Hleaves). by exists final, s1.
Qed.

Lemma reachable_ind (P : state → Prop) :
  P (initial questions start_id) →
  (∀ s s', reachable questions oracle answers start_id min_questions s →
           asked_count s < min_questions →
           loop_body questions oracle answers s = Continue s' → P s → P s') →
  ∀ s, reachable questions oracle answers start_id min_questions s → P s.
Proof.
  intros Hinit Hstep s Hreach. unfold reachable in *.
  eapply (rtc_ind_r P); [exact Hinit| |exact Hreach].
  intros s1 s2 Hrtc [Hlt Hbody] IH. by eapply Hstep.
Qed.

Lemma reachable_history s :
  reachable questions oracle answers start_id min_questions s →
  asked (trace s) = history s ∧ length (history s) = asked_count s.
Proof.
  revert s. apply reachable_ind; [done|].
  intros s s' _ _ Hbody Hs. pose proof (round_history s Hs) as H.
  by rewrite Hbody in H.
Qed.

Lemma reachable_count s :
  reachable questions oracle answers start_id min_questions s →
  asked_count s ≤ min_questions.
Proof.
  revert s. apply reachable_ind; [cbn; lia|].
  intros s s' _ Hlt Hbody _. pose proof (round_basic s) as H.
  rewrite Hbody in H. destruct H as [-> _]. lia.
Qed.

Lemma reachable_selects_well s :
  questions ≠ [] →
  reachable questions oracle answers start_id min_questions s →
  selects_well questions s.
Proof.
  intros Htable. revert s. apply reachable_ind.
  - split; [|by apply Forall_nil]. intros _. left. cbn.
    apply unique_nonempty. by destruct questions.
  - intros s s' _ _ Hbody Hs. pose proof (round_selects_well s Hs) as H.
    by rewrite Hbody in H.
Qed.

Lemma reachable_fresh s :
  NoDup (Question <$> questions) →
  Forall (λ r, QuestionID r ≠ []) questions →
  questions ≠ [] →
  reachable questions oracle answers start_id min_questions s →
  fresh_texts questions s.
Proof.
  intros Htexts Hids Htable. revert s. apply reachable_ind.
  - split; cbn.
    + by rewrite unique_NoDup.
    + intros _. exists start_id. split; [done|]. split; [set_solver|].
      split; [by left|]. intros q Hq. by apply elem_of_nil in Hq.
  - intros s s' _ _ Hbody Hs.
    pose proof (round_fresh Htexts Hids Htable s Hs) as H. by rewrite Hbody in H.
Qed.

(** The state in which the loop is left, from the state at its head. *)
Lemma leaves_cases s final :
  leaves questions oracle answers min_questions s final →
  (min_questions ≤ asked_count s ∧ final = s)
  ∨ (asked_count s < min_questions
     ∧ loop_body questions oracle answers s = Break final
     ∧ remaining_questions final = []
     ∧ last (trace final) = Some EvNoMore
     ∧ asked_count s ≤ asked_count final ≤ asked_count s + 1).
Proof.
  intros [[? ->]|[Hlt Hbody]]; [by left|right].
  pose proof (round_basic s) as H. rewrite Hbody in H.
  by destruct H as (? & _ & ? & ?).
Qed.

(** *** The claims on the Interview Engine *)

(** In oracle mode at the head of the loop, on an empty pool, the round
    leaves the loop with the message and without a question. *)
Lemma head_break s :
  use_csv_branching s = false ∨ 5 ≤ asked_count s →
  remaining_questions s = [] →
  loop_body questions oracle answers s = Break (log EvNoMore (set_branching false s)).
Proof.
  intros Hmode Hnil. unfold loop_body. rewrite choose_oracle by done.
  unfold oracle_pick. cbn. by rewrite Hnil.
Qed.

(** Branching mode outlives a round only from branching mode, below five
    questions, on an identifier of the table. *)
Lemma round_mode s t :
  ends questions oracle answers s t →
  use_csv_branching t = true →
  use_csv_branching s = true ∧ asked_count s < 5
  ∧ rows_by_id questions (current_id s) ≠ [].
Proof.
  assert (match loop_body questions oracle answers s with
          | Continue s' | Break s' =>
              use_csv_branching s' = true →
              use_csv_branching s = true ∧ asked_count s < 5
              ∧ rows_by_id questions (current_id s) ≠ []
          | Abort _ => False
          end) as H; [|by intros [Hbody|Hbody]; rewrite Hbody in H].
  round_cases s.
  - intros _. rewrite Hcid, Hrows. done.
  - intros _. rewrite Hcid, Hrows. done.
  - intros _. rewrite Hcid, Hrows. done.
  - rewrite Hb', Hb1. done.
  - rewrite Hb', Hb1. done.
  - done.
Qed.

(** C1, as amended: the loop is left with at most [min_questions] questions
    asked; it is left when the count has reached [min_questions], or earlier
    on an empty pool with the message "No more questions available."; a
    round is run only below [min_questions], and a round that continues the
    loop has put one question. *)
Theorem interview_stops_at_count :
  ∃ final,
    ask_questions questions oracle answers start_id min_questions
    = Some (Returned final)
    ∧ asked_count final ≤ min_questions
    ∧ length (asked (trace final)) = asked_count final
    ∧ (asked_count final = min_questions
       ∨ (remaining_questions final = [] ∧ last (trace final) = Some EvNoMore))
    ∧ ∀ s s',
        reachable questions oracle answers start_id min_questions s →
        continues questions oracle answers min_questions s s' →
        asked_count s < min_questions
        ∧ length (asked (trace s')) = S (length (asked (trace s))).
Proof.
  destruct ask_questions_run as (final & s1 & Hrun & Hreach & Hleaves).
  exists final. split; [done|].
  pose proof (reachable_history s1 Hreach) as Hhist.
  pose proof (reachable_count s1 Hreach) as Hcount.
  apply leaves_cases in Hleaves as [[Hge ->]|(Hlt & Hfinal & Hnil & Hlast & Hc)].
  - destruct Hhist as [-> ->]. split; [done|]. split; [done|]. split; [left; lia|].
    intros s s' Hs [Hlt Hbody]. split; [done|].
    pose proof (reachable_history s Hs) as [-> ->].
    pose proof (round_history s (reachable_history s Hs)) as H.
    rewrite Hbody in H. cbn in H. destruct H as [-> ->].
    pose proof (round_basic s) as Hb. rewrite Hbody in Hb. destruct Hb as [-> _]. lia.
  - pose proof (round_history s1 Hhist) as H. rewrite Hfinal in H.
    destruct H as [-> ->]. split; [lia|]. split; [done|]. split; [by right|].
    intros s s' Hs [Hlt' Hbody]. split; [done|].
    pose proof (reachable_history s Hs) as [-> ->].
    pose proof (round_history s (reachable_history s Hs)) as H.
    rewrite Hbody in H. cbn in H. destruct H as [-> ->].
    pose proof (round_basic s) as Hb. rewrite Hbody in Hb. destruct Hb as [-> _]. lia.
Qed.

(** C2, as amended: on every table, the loop left below [min_questions] is
    left on an empty pool with the message "No more questions available.";
    and at every head of the loop: in oracle mode on an empty pool the round
    leaves the loop with the message and puts no question; on a non-empty
    table a failed lookup of the identifier finds the pool non-empty; a
    round that continues in oracle mode continues on a non-empty pool; a
    round that leaves the loop leaves it on an empty pool with the
    message. *)
Theorem pool_exhaustion_stops :
  ∃ final,
    ask_questions questions oracle answers start_id min_questions
    = Some (Returned final)
    ∧ (asked_count final < min_questions →
       remaining_questions final = [] ∧ last (trace final) = Some EvNoMore)
    ∧ ∀ s,
        reachable questions oracle answers start_id min_questions s →
        (use_csv_branching s = false ∨ 5 ≤ asked_count s →
         remaining_questions s = [] →
         loop_body questions oracle answers s
         = Break (log EvNoMore (set_branching false s)))
        ∧ (questions ≠ [] →
           use_csv_branching s = true → asked_count s < 5 →
           rows_by_id questions (current_id s) = [] →
           remaining_questions s ≠ [])
        ∧ (∀ s', loop_body questions oracle answers s = Continue s' →
                 use_csv_branching s' = false → remaining_questions s' ≠ [])
        ∧ (∀ s', loop_body questions oracle answers s = Break s' →
                 remaining_questions s' = [] ∧ last (trace s') = Some EvNoMore).
Proof.
  destruct ask_questions_run as (final & s1 & Hrun & Hreach & Hleaves).
  exists final. split; [done|]. split.
  - pose proof (reachable_count s1 Hreach) as Hcount.
    apply leaves_cases in Hleaves as [[Hge ->]|(Hlt & Hfinal & Hnil & Hlast & Hc)];
      [lia|done].
  - intros s Hs. split; [apply head_break|]. split; [|split].
    + intros Htable Hb _ Hrows Hnil.
      destruct (reachable_selects_well s Htable Hs) as [Hj _].
      destruct (Hj Hb); done.
    + intros s' Hbody. pose proof (round_basic s) as H. rewrite Hbody in H. apply H.
    + intros s' Hbody. pose proof (round_basic s) as H. rewrite Hbody in H.
      by destruct H as (? & _ & ? & _).
Qed.

(** A branch target that cannot be taken ends branching mode. *)
Lemma branch_fails_mode s t :
  branch_fails questions answers s →
  ends questions oracle answers s t →
  use_csv_branching t = false.
Proof.
  intros (c0 & row0 & rest0 & Hc0 & Hne & Hrows0 & Hfail).
  assert (match loop_body questions oracle answers s with
          | Continue s' | Break s' => use_csv_branching s' = false
          | Abort _ => False
          end) as H; [|by intros [Hbody|Hbody]; rewrite Hbody in H].
  round_cases s.
  - exfalso. rewrite Hc0 in Hcid. injection Hcid as <-.
    rewrite Hrows in Hrows0. injection Hrows0 as <- <-.
    unfold valid_next in Hvalid. cbn in Hvalid.
    apply andb_true_iff in Hvalid as [[Hv0%bool_decide_eq_true
      Hv1%bool_decide_eq_true]%andb_true_iff Hv2%bool_decide_eq_true].
    injection Heq as <- <-.
    destruct Hfail as [?|[?|[Hsame|Hasked]]]; [done|done| |].
    + apply Hv2, elem_of_union. left. by apply elem_of_singleton.
    + apply Hv2, elem_of_union. by right.
  - rewrite Hb', Hb, Hcid. rewrite Hc0 in Hcid. injection Hcid as <-.
    by destruct c0.
  - rewrite Hb', Hb, Hcid. rewrite Hc0 in Hcid. injection Hcid as <-.
    by destruct c0.
  - by rewrite Hb', Hb1.
  - by rewrite Hb', Hb1.
  - done.
Qed.

(** Oracle mode is kept by rounds. *)
Lemma rounds_keep_oracle_mode s s' :
  rtc (next_round questions oracle answers min_questions) s s' →
  use_csv_branching s = false → use_csv_branching s' = false.
Proof.
  induction 1 as [|s s1 s2 [_ Hends] _ IH]; [done|]. intros Hs. apply IH.
  destruct (use_csv_branching s1) eqn:E; [|done].
  apply (round_mode s s1 Hends) in E as [? _]. congruence.
Qed.

(** C3: after a round that starts with five questions asked or more, or in
    oracle mode, or on an identifier that the table does not have, or whose
    branch target cannot be taken (it is empty, unknown or asked already),
    the engine is in oracle mode, and it is in oracle mode after any number
    of further rounds. *)
Theorem mode_one_way s s1 s' :
  next_round questions oracle answers min_questions s s1 →
  rtc (next_round questions oracle answers min_questions) s1 s' →
  5 ≤ asked_count s ∨ use_csv_branching s = false
  ∨ rows_by_id questions (current_id s) = [] ∨ branch_fails questions answers s →
  use_csv_branching s1 = false ∧ use_csv_branching s' = false.
Proof.
  intros [_ Hends] Hrtc Hswitch.
  assert (use_csv_branching s1 = false) as Hs1.
  { destruct Hswitch as [?|[?|[?|?]]]; [| | |by eapply branch_fails_mode];
      (destruct (use_csv_branching s1) eqn:E; [|done]);
      apply (round_mode s s1 Hends) in E as (Hb & Hn & Hrows); [lia|congruence|done]. }
  split; [done|]. by eapply rounds_keep_oracle_mode.
Qed.

(** C4: on a non-empty table whose question texts are distinct and whose
    identifiers are not empty, the interview puts at least
    [min(min_questions, number of distinct questions)] questions, and no
    question text is in its history twice. *)
Theorem asks_enough_without_repeat :
  questions ≠ [] →
  NoDup (Question <$> questions) →
  Forall (λ r, QuestionID r ≠ []) questions →
  ∃ final,
    ask_questions questions oracle answers start_id min_questions
    = Some (Returned final)
    ∧ min_questions `min` length (PyList.unique (Question <$> questions))
      ≤ length (asked (trace final))
    ∧ asked (trace final) = history final
    ∧ NoDup (history final).*1.
Proof.
  intros Htable Htexts Hids.
  destruct ask_questions_run as (final & s1 & Hrun & Hreach & Hleaves).
  exists final. split; [done|].
  pose proof (reachable_history s1 Hreach) as Hhist.
  pose proof (reachable_fresh s1 Htexts Hids Htable Hreach) as Hfresh.
  rewrite unique_NoDup by done. rewrite length_fmap.
  assert (asked (trace final) = history final
          ∧ length (history final) = asked_count final
          ∧ (history final).*1 ++ remaining_questions final ≡ₚ Question <$> questions
          ∧ (min_questions ≤ asked_count final ∨ remaining_questions final = []))
    as (Htr & Hlen & Hperm & Hend).
  { apply leaves_cases in Hleaves as [[Hge ->]|(Hlt & Hfinal & Hnil & Hlast & Hc)].
    - destruct Hhist, Hfresh. by repeat split; try left.
    - pose proof (round_history s1 Hhist) as H. rewrite Hfinal in H.
      pose proof (round_fresh Htexts Hids Htable s1 Hfresh) as H'.
      rewrite Hfinal in H'. destruct H, H'. by repeat split; try right. }
  rewrite Htr. split; [|split; [done|]].
  - destruct Hend as [?|Hnil]; [lia|].
    rewrite Hnil, app_nil_r in Hperm. apply Permutation_length in Hperm.
    rewrite !length_fmap in Hperm. lia.
  - assert (NoDup ((history final).*1 ++ remaining_questions final)) as Hnd.
    { by rewrite Hperm. }
    by apply NoDup_app in Hnd as [? _].
Qed.

(** C6, as amended: on a non-empty table the engine calls the selector on
    non-empty pools only; called on the empty pool, the selector raises
    nothing and returns the fixed question "Do you have any other
    interests?". *)
Theorem selector_pools_nonempty :
  questions ≠ [] →
  ∃ final,
    ask_questions questions oracle answers start_id min_questions
    = Some (Returned final)
    ∧ Forall (λ pool, pool ≠ []) (pools (trace final))
    ∧ ∀ history response,
        get_next_question_from_gemini history [] response = Returned other_interests.
Proof.
  intros Htable.
  destruct ask_questions_run as (final & s1 & Hrun & Hreach & Hleaves).
  exists final. split; [done|]. split.
  - pose proof (reachable_selects_well s1 Htable Hreach) as Hsel.
    destruct Hleaves as [[_ ->]|[_ Hbody]]; [apply Hsel|].
    pose proof (round_selects_well s1 Hsel) as H. by rewrite Hbody in H.
  - intros history response.
    destruct (selector_returns history [] response) as (q & -> & _ & Hq).
    by rewrite Hq.
Qed.

End Rounds.

(** ** The claims on concrete interviews *)

(** Against C1 as stated: with [min_questions = 1] the loop is left after
    one question, in branching mode, with the next question (Q2) in the
    table and two questions in the pool. *)
Lemma stops_with_questions_left :
  ∃ final,
    ask_questions demo_table demo_oracle demo_answers (py "Q1") 1
    = Some (Returned final)
    ∧ asked_count final = 1
    ∧ use_csv_branching final = true
    ∧ current_id final = Some (py "Q2")
    ∧ remaining_questions final = [py "Do you prefer teams?"; py "Do you like art?"]
    ∧ trace final = [EvAsk (py "Do you like coding?") (py "yes")].
Proof.
  eexists. split; [vm_compute; reflexivity|]. repeat split.
Qed.

(** Against C6 as stated: on the empty pool the selector returns the fixed
    question, whether the oracle answers or fails; and on an empty table the
    engine calls it on the empty pool. *)
Lemma selector_empty_pool_returns :
  get_next_question_from_gemini [] [] (Text (py "Do you like art?"))
  = Returned other_interests
  ∧ get_next_question_from_gemini [] [] (Fails (py "quota exceeded"))
    = Returned other_interests
  ∧ ∃ final,
      ask_questions [] demo_oracle demo_answers (py "Q1") 1 = Some (Returned final)
      ∧ trace final
        = [EvSelect [] other_interests; EvAsk other_interests (py "yes"); EvNoMore].
Proof.
  split; [reflexivity|]. split; [reflexivity|].
  eexists. split; [vm_compute; reflexivity|]. reflexivity.
Qed.

(** Against C2 as stated: on a table without rows the lookup of the start
    identifier fails on an empty pool; the round, then in oracle mode, does
    not leave the loop with the message but calls the selector on the empty
    pool and puts its fixed question, and only then finds no more
    questions. *)
Lemma empty_pool_question_put :
  let s := initial [] (py "Q1") in
  use_csv_branching s = true
  ∧ rows_by_id [] (current_id s) = []
  ∧ remaining_questions s = []
  ∧ loop_body [] demo_oracle demo_answers s
    ≠ Break (log EvNoMore (set_branching false s))
  ∧ ∃ final,
      ask_questions [] demo_oracle demo_answers (py "Q1") 10 = Some (Returned final)
      ∧ use_csv_branching final = false
      ∧ asked_count final = 1
      ∧ trace final
        = [EvSelect [] other_interests; EvAsk other_interests (py "yes"); EvNoMore].
Proof.
  intros s. split; [reflexivity|]. split; [reflexivity|]. split; [reflexivity|].
  split; [by vm_compute|].
  eexists. split; [vm_compute; reflexivity|]. repeat split.
Qed.

Lemma pool_exhaustion_demo :
  ∃ final,
    ask_questions demo_table demo_oracle demo_answers (py "Q1") 10
    = Some (Returned final)
    ∧ (asked_count final < 10 →
       remaining_questions final = [] ∧ last (trace final) = Some EvNoMore).
Proof.
  destruct (pool_exhaustion_stops demo_table demo_oracle demo_answers (py "Q1") 10)
    as (final & H1 & H2 & _).
  by exists final.
Defined.

(** The scenario of the specification: Q1, answered yes, leads to Q2, whose
    targets are empty; branching is left right after Q2, not before, and
    oracle mode stays after the next round. *)
Lemma mode_one_way_demo :
  let s0 := initial demo_table (py "Q1") in
  let s1 := demo_round s0 in
  let s2 := demo_round s1 in
  let s3 := demo_round s2 in
  use_csv_branching s1 = true
  ∧ use_csv_branching s2 = false ∧ use_csv_branching s3 = false.
Proof.
  intros s0 s1 s2 s3. split; [reflexivity|].
  apply (mode_one_way demo_table demo_oracle demo_answers 10 s1 s2 s3).
  - split; [vm_compute; lia | left; vm_compute; reflexivity].
  - apply rtc_once. split; [vm_compute; lia | right; vm_compute; reflexivity].
  - right. right. right.
    exists (py "Q2"), {| QuestionID := py "Q2"; Question := py "Do you prefer teams?";
                         NextIfYes := []; NextIfNo := [] |}, [].
    split; [reflexivity|]. split; [done|]. split; [reflexivity|].
    left. reflexivity.
Defined.

Lemma asks_enough_demo :
  ∃ final,
    ask_questions demo_table demo_oracle demo_answers (py "Q1") 10
    = Some (Returned final)
    ∧ 10 `min` length (PyList.unique (Question <$> demo_table))
      ≤ length (asked (trace final))
    ∧ asked (trace final) = history final
    ∧ NoDup (history final).*1.
Proof.
  apply (asks_enough_without_repeat demo_table demo_oracle demo_answers (py "Q1") 10).
  - done.
  - apply (bool_decide_unpack _). vm_compute. exact I.
  - repeat constructor; done.
Defined.

Lemma selector_pools_demo :
  ∃ final,
    ask_questions demo_table demo_oracle demo_answers (py "Q1") 10
    = Some (Returned final)
    ∧ Forall (λ pool, pool ≠ []) (pools (trace final))
    ∧ ∀ history response,
        get_next_question_from_gemini history [] response = Returned other_interests.
Proof.
  apply (selector_pools_nonempty demo_table demo_oracle demo_answers (py "Q1") 10).
  done.
Defined.

(** * More properties of the program *)

(** ** [str.strip] *)

Module StripFacts.
Import PyStr.

Lemma lstrip_suffix s : lstrip s `suffix_of` s.
Proof.
  induction s as [|c s IH]; simpl; [done|].
  destruct (isspace c); [by apply suffix_cons_r | done].
Qed.

Lemma lstrip_head s c : head (lstrip s) = Some c → isspace c = false.
Proof.
  induction s as [|c' s IH]; simpl; [done|].
  destruct (isspace c') eqn:E; [done|]. simpl. by intros [= <-].
Qed.

Lemma lstrip_fixed s : (∀ c, head s = Some c → isspace c = false) → lstrip s = s.
Proof. destruct s as [|c s]; simpl; [done|]. intros H. by rewrite (H c). Qed.

Lemma rstrip_prefix s : rstrip s `prefix_of` s.
Proof.
  unfold rstrip. destruct (lstrip_suffix (reverse s)) as [k Hk].
  exists (reverse k). apply (inj reverse).
  by rewrite reverse_app, !reverse_involutive.
Qed.

Lemma rstrip_last s c : last (rstrip s) = Some c → isspace c = false.
Proof. unfold rstrip. rewrite last_reverse. apply lstrip_head. Qed.

Lemma rstrip_fixed s : (∀ c, last s = Some c → isspace c = false) → rstrip s = s.
Proof.
  intros H. unfold rstrip. rewrite lstrip_fixed; [apply reverse_involutive|].
  intros c. rewrite head_reverse. apply H.
Qed.

Lemma strip_trimmed s : trimmed (strip s).
Proof.
  split; intros c; unfold strip; [|apply rstrip_last].
  destruct (rstrip_prefix (lstrip s)) as [k Hk].
  destruct (rstrip (lstrip s)) as [|c' r] eqn:E; [done|].
  simpl. intros [= ->]. apply (lstrip_head s). by rewrite Hk.
Qed.

Lemma trimmed_strip s : trimmed s → strip s = s.
Proof.
  intros [Hhead Hlast]. unfold strip. rewrite (lstrip_fixed s) by done.
  by apply rstrip_fixed.
Qed.

Lemma strip_idemp s : strip (strip s) = strip s.
Proof. apply trimmed_strip, strip_trimmed. Qed.

(** The trimmed text is a part of the text. *)
Lemma strip_slice s : ∃ a b, strip s = slice s a b.
Proof.
  unfold strip. destruct (lstrip_suffix s) as [k1 Hk1].
  destruct (rstrip_prefix (lstrip s)) as [k2 Hk2].
  remember (lstrip s) as u eqn:Hu. remember (rstrip u) as w eqn:Hw.
  clear Hu Hw. subst u s.
  exists (length k1), (length k1 + length w).
  unfold slice. rewrite drop_app_length.
  replace (length k1 + length w - length k1) with (length w) by lia.
  by rewrite take_app_length.
Qed.

End StripFacts.

(** ** More on the Market Report Extractor *)

Section MoreExtractor.
Import PyStr PyStrFacts ExtractFacts StripFacts.

Lemma NA_trimmed : trimmed NA.
Proof. split; intros c [= <-]; reflexivity. Qed.

Lemma extract_step_dom text data pos key :
  dom (extract_step text (data, pos) key).1 = {[key]} ∪ dom data.
Proof.
  unfold extract_step.
  destruct (find text (key ++ colon) pos); simpl; apply dom_insert_L.
Qed.

Lemma extract_loop_dom text ks : ∀ data pos,
  dom (foldl (extract_step text) (data, pos) ks).1 = list_to_set ks ∪ dom data.
Proof.
  induction ks as [|key ks IH]; intros data pos; cbn [foldl list_to_set].
  - set_solver.
  - destruct (extract_step text (data, pos) key) as [data' pos'] eqn:E.
    rewrite IH. change data' with (data', pos').1. rewrite <- E, extract_step_dom.
    set_solver.
Qed.

Lemma fetch_dom response :
  dom (fetch_market_trend response) = list_to_set keys ∪ {[RAW]}.
Proof.
  destruct response as [text|message]; cbn [fetch_market_trend].
  - unfold extract. rewrite extract_loop_dom, dom_singleton_L. done.
  - unfold unavailable. rewrite !dom_insert_L, dom_singleton_L.
    unfold keys. cbn [list_to_set]. set_solver.
Qed.

(** X1: whatever the oracle does, the report has the four labels and "Raw
    Output" as its keys, and no other key. *)
Theorem report_keys response key :
  is_Some (fetch_market_trend response !! key) ↔ key ∈ keys ∨ key = RAW.
Proof.
  rewrite <- elem_of_dom, fetch_dom, elem_of_union, elem_of_list_to_set.
  by rewrite elem_of_singleton.
Qed.

(** The values written by the loop are trimmed. *)
Lemma extract_loop_trimmed text ks : ∀ data pos,
  (∀ k v, k ≠ RAW → data !! k = Some v → trimmed v) →
  ∀ k v, k ≠ RAW →
         (foldl (extract_step text) (data, pos) ks).1 !! k = Some v → trimmed v.
Proof.
  induction ks as [|key ks IH]; intros data pos Hdata; [done|]. cbn [foldl].
  destruct (extract_step text (data, pos) key) as [data' pos'] eqn:E.
  apply IH. intros k v Hk. unfold extract_step in E.
  destruct (find text (key ++ colon) pos); injection E as <- _;
    rewrite lookup_insert; case_decide; try (by apply Hdata);
    intros [= <-]; [apply strip_trimmed | apply NA_trimmed].
Qed.

(** X2: whatever the oracle does, each of the four fields of the report
    neither starts nor ends with whitespace. *)
Theorem fields_trimmed response key v :
  key ∈ keys → fetch_market_trend response !! key = Some v → trimmed v.
Proof.
  intros Hkey. assert (key ≠ RAW) as Hne.
  { intros ->. by apply RAW_not_key. }
  destruct response as [text|message]; cbn [fetch_market_trend].
  - unfold extract. apply extract_loop_trimmed; [|done].
    intros k v' Hk. rewrite lookup_singleton_ne by done. done.
  - unfold unavailable. rewrite lookup_insert_ne by done.
    rewrite !lookup_insert. repeat case_decide; try (intros [= <-]; apply NA_trimmed).
    rewrite lookup_singleton. case_decide; [|done]. intros [= <-]. apply NA_trimmed.
Qed.

Lemma fields_trimmed_scenario :
  trimmed (py "Python, SQL").
Proof.
  apply (fields_trimmed (Text scenario_text) (py "Top Skills")).
  - apply (bool_decide_unpack _). vm_compute. exact I.
  - vm_compute. reflexivity.
Defined.

(** X3: the value of a label found in the text ends at the first blank line
    at or after the label, or at the first later label after it, or at the
    end of the text, whichever comes first; the field is the trimmed text
    between the label's colon and that end, and the cursor moves to it. *)
Theorem value_end text data pos key start :
  find text (key ++ colon) pos = Some start →
  ∃ e,
    extract_step text (data, pos) key
    = (<[key := strip (slice text (start + length key + 1) e)]> data, e)
    ∧ start ≤ e ∧ e ≤ length text
    ∧ (∀ j, start ≤ j → occurs_at NN text j → e ≤ j)
    ∧ (∀ k j, k ∈ drop (PyList.index key keys + 1) keys → start < j →
              occurs_at (k ++ colon) text j → e ≤ j)
    ∧ (e = length text ∨ occurs_at NN text e
       ∨ ∃ k, k ∈ drop (PyList.index key keys + 1) keys
              ∧ occurs_at (k ++ colon) text e).
Proof.
  intros Hfind.
  destruct (extract_step_end text data pos key start Hfind)
    as (e & Hstep & _ & ? & ? & ? & ? & ?).
  exists e. by repeat split.
Qed.

(** A label followed on its line by a later label: the value stops at the
    later label, at the latest. *)
Lemma value_end_one_line :
  let text := py "Market Demand: high Top Skills: SQL" in
  ∃ e,
    extract_step text (∅, 0) (py "Market Demand")
    = (<[py "Market Demand" :=
           strip (slice text (0 + length (py "Market Demand") + 1) e)]> ∅, e)
    ∧ e ≤ 20.
Proof.
  intros text.
  destruct (value_end text ∅ 0 (py "Market Demand") 0)
    as (e & Hstep & _ & _ & _ & Hlater & _); [reflexivity|].
  exists e. split; [exact Hstep|].
  apply (Hlater (py "Top Skills") 20).
  - apply (bool_decide_unpack _). vm_compute. exact I.
  - lia.
  - split; [vm_compute; lia|]. apply startswith_prefix. vm_compute. reflexivity.
Defined.

(** X4: the cursor of the extraction loop never moves back and never leaves
    the text, over any keys and from any cursor in the text. *)
Theorem cursor_moves_on text ks data pos :
  pos ≤ length text →
  let r := foldl (extract_step text) (data, pos) ks in
  pos ≤ r.2 ∧ r.2 ≤ length text.
Proof.
  revert data pos. induction ks as [|key ks IH]; intros data pos Hpos; cbn [foldl].
  - simpl. lia.
  - destruct (extract_step text (data, pos) key) as [data' pos'] eqn:E.
    assert (pos ≤ pos' ∧ pos' ≤ length text) as [H1 H2].
    { destruct (find text (key ++ colon) pos) as [start|] eqn:F.
      - destruct (extract_step_end text data pos key start F)
          as (e & Hstep & ? & ? & ? & _).
        rewrite Hstep in E. injection E as _ <-. lia.
      - rewrite extract_step_absent in E by done. injection E as _ <-. lia. }
    destruct (IH data' pos' H2) as [H3 H4]. cbv zeta. lia.
Qed.

Lemma cursor_moves_on_scenario :
  let r := foldl (extract_step scenario_text) (∅, 5) keys in
  5 ≤ r.2 ∧ r.2 ≤ length scenario_text.
Proof.
  apply (cursor_moves_on scenario_text keys ∅ 5). vm_compute. lia.
Defined.

(** X5: a text in which no label with its colon occurs, the empty text
    among them, gives the report of a failed oracle call whose message is
    that text: the four fields are "N/A". *)
Theorem no_label_all_unavailable text :
  Forall (λ key, contains (key ++ colon) text = false) keys →
  fetch_market_trend (Text text) = unavailable text.
Proof.
  intros Hnone. cbn [fetch_market_trend]. unfold extract, unavailable.
  assert (∀ key data pos, key ∈ keys →
            extract_step text (data, pos) key = (<[key := NA]> data, pos)) as Hstep.
  { intros key data pos Hkey. apply extract_step_absent, find_absent.
    intros j _ Hocc. rewrite Forall_forall in Hnone.
    apply (contains_false _ _ j (Hnone key Hkey)). done. }
  unfold keys in *. cbn [foldl].
  rewrite !Hstep by (repeat first [by left | right]). cbn [fst].
  apply map_eq. intros k.
  rewrite !lookup_insert, !lookup_singleton.
  repeat case_decide; subst; try reflexivity; try congruence;
    match goal with
    | H : lit _ = _ |- _ => by vm_compute in H
    | H : RAW = _ |- _ => by vm_compute in H
    end.
Qed.

Lemma no_label_empty_text :
  fetch_market_trend (Text []) = unavailable [].
Proof.
  apply (no_label_all_unavailable []).
  repeat constructor; vm_compute; reflexivity.
Defined.

(** The five keys that lines 216-220 read are in every report. *)
Lemma present_some suggestion response :
  ∃ out, present suggestion (fetch_market_trend response) = Some out
         ∧ recommended out = suggestion
         ∧ details out = match response with
                         | Text text => text
                         | Fails message => message
                         end.
Proof.
  assert (∀ key, key ∈ keys → is_Some (fetch_market_trend response !! key)) as Hkeys.
  { intros key Hkey. apply elem_of_dom. rewrite fetch_dom.
    apply elem_of_union. left. by apply elem_of_list_to_set. }
  assert (fetch_market_trend response !! py "Raw Output"
          = Some match response with Text text => text | Fails message => message end)
    as Hraw.
  { change (py "Raw Output") with RAW.
    destruct response as [text|message]; cbn [fetch_market_trend].
    - unfold extract. rewrite extract_loop_other by apply RAW_not_key.
      apply lookup_singleton_eq.
    - apply lookup_insert_eq. }
  destruct (Hkeys (py "Market Demand")) as [d Hd];
    [apply (bool_decide_unpack _); vm_compute; exact I|].
  destruct (Hkeys (py "Top Skills")) as [t Ht];
    [apply (bool_decide_unpack _); vm_compute; exact I|].
  destruct (Hkeys (py "Expected Salary Range")) as [r Hr];
    [apply (bool_decide_unpack _); vm_compute; exact I|].
  destruct (Hkeys (py "Aligns with Market Trends")) as [a Ha];
    [apply (bool_decide_unpack _); vm_compute; exact I|].
  unfold present. rewrite Hd, Ht, Hr, Ha, Hraw. cbn. eauto.
Qed.

End MoreExtractor.

(** ** More on the Recommendation Synthesizer *)

(** X6: the suggestion is a part of the oracle's text, without whitespace
    at either end; and it is "N/A", itself without such whitespace, when the
    oracle call fails. *)
Theorem suggestion_trimmed history response :
  trimmed (get_suggestion history response)
  ∧ match response with
    | Text text => ∃ a b, get_suggestion history response = PyStr.slice text a b
    | Fails _ => get_suggestion history response = py "N/A"
    end.
Proof.
  destruct response as [text|message]; cbn [get_suggestion].
  - split; [apply StripFacts.strip_trimmed | apply StripFacts.strip_slice].
  - split; [|done]. split; intros c [= <-]; reflexivity.
Qed.

(** ** More on the Interview Engine *)

Section MoreRounds.
Context (questions : list QuestionRecord) (oracle : nat → reply)
        (answers : nat → str) (start_id : str) (min_questions : nat).

Ltac round_split s :=
  unfold loop_body;
  let Hch := fresh "Hch" in
  pose proof (choose_spec questions oracle answers min_questions s) as Hch; cbv zeta in Hch;
  destruct (choose questions oracle s) as [[[[q [[next_yes next_no]|]] s1]|s0]|e];
  [ | | | destruct Hch ];
  [ let Hadv := fresh "Hadv" in
    pose proof (advance_spec questions oracle answers min_questions
                  (read_answer (answers (asked_count s1)))
                  (Some (next_yes, next_no))
                  (record_answer q (read_answer (answers (asked_count s1))) s1)) as Hadv;
    cbv zeta in Hadv;
    destruct Hch as (Hmode & c & row & rest & Hcid & Hrows & -> & -> & -> & ->);
    apply andb_true_iff in Hmode as [Hb Hn%bool_decide_eq_true];
    destruct (advance questions oracle _ _ _) as [s'|s'|e];
    [ destruct Hadv as [(ny & nn & next_id & Heq & Hoff & -> & Hvalid & ->)
                       |((Hh & Hr & Hc & Hi) & Hb' & q' & Hq' & Hid & Htr)]
    | destruct Hadv as (Hnil & (Hh & Hr & Hc & Hi) & Hb' & Htr)
    | destruct Hadv ]
  | let Hadv := fresh "Hadv" in
    pose proof (advance_spec questions oracle answers min_questions
                  (read_answer (answers (asked_count s1))) None
                  (record_answer q (read_answer (answers (asked_count s1))) s1)) as Hadv;
    cbv zeta in Hadv;
    destruct Hch as ((Hh1 & Hr1 & Hc1 & Hi1) & Hb1 & Htr1 & Hq & Hmiss);
    destruct (advance questions oracle _ _ _) as [s'|s'|e];
    [ destruct Hadv as [(ny & nn & next_id & Heq & _)
                       |((Hh & Hr & Hc & Hi) & Hb' & q' & Hq' & Hid & Htr)];
      [ discriminate Heq | ]
    | destruct Hadv as (Hnil & (Hh & Hr & Hc & Hi) & Hb' & Htr)
    | destruct Hadv ]
  | destruct Hch as (Hmode & Hnil & ->) ];
  cbn in *.

(** What a round records: nothing, when it leaves the loop at its head; or
    one question with the answer to it, the question coming from the table
    or from the pool (or, on an empty pool, after a failed lookup). *)
Lemma round_record s :
  match loop_body questions oracle answers s with
  | Continue s' | Break s' =>
      asked_ids s ⊆ asked_ids s'
      ∧ trace s `prefix_of` trace s'
      ∧ length (pools (trace s'))
        ≤ length (pools (trace s)) + 2 * (asked_count s' - asked_count s)
      ∧ ((history s' = history s ∧ remaining_questions s' = remaining_questions s
          ∧ asked_count s' = asked_count s)
         ∨ ∃ q, history s' = history s ++ [(q, read_answer (answers (asked_count s)))]
                ∧ remaining_questions s'
                  = (if bool_decide (q ∈ remaining_questions s)
                     then PyList.remove q (remaining_questions s)
                     else remaining_questions s)
                ∧ asked_count s' = asked_count s + 1
                ∧ (q ∈ Question <$> questions ∨ q ∈ remaining_questions s
                   ∨ (remaining_questions s = [] ∧ use_csv_branching s = true
                      ∧ rows_by_id questions (current_id s) = [])))
  | Abort _ => False
  end.
Proof.
  unfold pools. round_split s.
  - split; [set_solver|]. split; [by apply prefix_app_r|].
    split; [rewrite omap_app, length_app; cbn; lia|]. right. eexists.
    split; [done|]. split; [done|]. split; [done|]. left.
    apply rows_by_id_head in Hrows as [? _]. apply list_elem_of_fmap. eauto.
  - rewrite Hh, Hr, Hc, Htr.
    split; [set_solver|]. split; [rewrite <- (assoc_L (++)); by apply prefix_app_r|].
    split; [rewrite !omap_app, !length_app; cbn; lia|]. right. eexists.
    split; [done|]. split; [done|]. split; [done|]. left.
    apply rows_by_id_head in Hrows as [? _]. apply list_elem_of_fmap. eauto.
  - rewrite Hh, Hr, Hc, Htr.
    split; [set_solver|]. split; [rewrite <- (assoc_L (++)); by apply prefix_app_r|].
    split; [rewrite !omap_app, !length_app; cbn; lia|]. right. eexists.
    split; [done|]. split; [done|]. split; [done|]. left.
    apply rows_by_id_head in Hrows as [? _]. apply list_elem_of_fmap. eauto.
  - rewrite Hh, Hr, Hc, Htr, Htr1, Hh1, Hr1, Hc1.
    split; [set_solver|].
    split; [rewrite <- !(assoc_L (++)); by apply prefix_app_r|].
    split; [rewrite !omap_app, !length_app; cbn; lia|]. right. exists q.
    split; [done|]. split; [done|]. split; [done|].
    destruct (remaining_questions s) as [|q0 rem] eqn:Hrem.
    + right. right. destruct Hmiss as [Hm ?]; [by left|].
      by apply andb_true_iff in Hm as [? _].
    + right. left. by apply Hq.
  - rewrite Hh, Hr, Hc, Htr, Htr1, Hh1, Hr1, Hc1.
    split; [set_solver|].
    split; [rewrite <- !(assoc_L (++)); by apply prefix_app_r|].
    split; [rewrite !omap_app, !length_app; cbn; lia|]. right. exists q.
    split; [done|]. split; [done|]. split; [done|].
    destruct (remaining_questions s) as [|q0 rem] eqn:Hrem.
    + right. right. destruct Hmiss as [Hm ?]; [by left|].
      by apply andb_true_iff in Hm as [? _].
    + right. left. by apply Hq.
  - split; [done|]. split; [by apply prefix_app_r|].
    split; [rewrite omap_app, length_app; cbn; lia|]. by left.
Qed.

(** What holds at the start and is kept by every round holds when the loop
    is left. *)
Lemma final_invariant (P : state → Prop) :
  P (initial questions start_id) →
  (∀ s s', P s → ends questions oracle answers s s' → P s') →
  ∃ final,
    ask_questions questions oracle answers start_id min_questions
    = Some (Returned final)
    ∧ P final.
Proof.
  intros Hinit Hstep.
  destruct (ask_questions_run questions oracle answers start_id min_questions)
    as (final & s1 & Hrun & Hreach & Hleaves).
  exists final. split; [done|].
  assert (P s1) as Hs1.
  { revert Hreach. apply reachable_ind; [done|].
    intros s s' _ _ Hbody Hs. apply (Hstep s s' Hs). by left. }
  destruct Hleaves as [[_ ->]|[_ Hbody]]; [done|].
  apply (Hstep s1 final Hs1). by right.
Qed.

Lemma read_answer_range line :
  read_answer line = py "yes" ∨ read_answer line = py "no".
Proof.
  unfold read_answer. case_bool_decide as Hin; [|by right].
  apply elem_of_cons in Hin as [->|Hin]; [by left|].
  apply list_elem_of_singleton in Hin as ->. by right.
Qed.

(** X7: the answers in the history are, in order, the lines typed at the
    questions, each brought to "yes" or "no": no line is skipped and none
    is used twice. *)
Theorem answers_recorded :
  ∃ final,
    ask_questions questions oracle answers start_id min_questions
    = Some (Returned final)
    ∧ (history final).*2
      = (λ i, read_answer (answers i)) <$> seq 0 (length (history final))
    ∧ Forall (λ a, a = py "yes" ∨ a = py "no") (history final).*2.
Proof.
  destruct (final_invariant
    (λ s, length (history s) = asked_count s
          ∧ (history s).*2
            = (λ i, read_answer (answers i)) <$> seq 0 (asked_count s)))
    as (final & Hrun & Hlen & Hans).
  - done.
  - intros s s' [Hlen Hans] Hends.
    pose proof (round_record s) as H.
    destruct Hends as [Hbody|Hbody]; rewrite Hbody in H;
      destruct H as (_ & _ & _ & [(-> & _ & ->)|(q & -> & _ & -> & _)]);
      try done;
      (split; [rewrite length_app; cbn; lia|]);
      rewrite fmap_app, Hans, Nat.add_1_r, seq_S, fmap_app; done.
  - exists final. split; [done|]. rewrite Hlen. split; [done|].
    rewrite Hans. apply Forall_fmap, Forall_forall. intros i _.
    apply read_answer_range.
Qed.

Lemma remove_sublist (q : str) (l : list str) : PyList.remove q l `sublist_of` l.
Proof.
  induction l as [|y l IH]; simpl; [done|].
  case_bool_decide; [by apply sublist_cons | by apply sublist_skip].
Qed.

Lemma unique_elem (l : list str) x : x ∈ PyList.unique l → x ∈ l.
Proof.
  revert x. induction l as [|y l IH]; intros x; simpl; [done|].
  intros [->|Hx]%elem_of_cons; [left|right].
  apply list_elem_of_filter in Hx as [_ Hx]. by apply IH.
Qed.

(** The pool after a round is a part of the pool before it. *)
Lemma round_pool s s' :
  ends questions oracle answers s s' →
  remaining_questions s' `sublist_of` remaining_questions s.
Proof.
  intros Hends. pose proof (round_record s) as H.
  destruct Hends as [Hbody|Hbody]; rewrite Hbody in H;
    destruct H as (_ & _ & _ & [(_ & -> & _)|(q & _ & -> & _)]);
    try done; case_bool_decide; try done; apply remove_sublist.
Qed.

(** X8: on a non-empty table every question put to the person is a
    question of the table; the fixed question of the selector's handler is
    put only if the table has it. *)
Theorem asks_table_questions :
  questions ≠ [] →
  ∃ final,
    ask_questions questions oracle answers start_id min_questions
    = Some (Returned final)
    ∧ Forall (λ q, q ∈ Question <$> questions) (asked (trace final)).*1.
Proof.
  intros Htable.
  destruct (ask_questions_run questions oracle answers start_id min_questions)
    as (final & s1 & Hrun & Hreach & Hleaves).
  exists final. split; [done|].
  set (P := λ s : state,
    Forall (λ q, q ∈ Question <$> questions) (remaining_questions s)
    ∧ Forall (λ q, q ∈ Question <$> questions) (history s).*1).
  assert (∀ s s', selects_well questions s → P s →
            ends questions oracle answers s s' → P s') as Hstep.
  { intros s s' [Hj _] [Hrem Hhist] Hends. split.
    - apply Forall_forall. intros q Hq. rewrite Forall_forall in Hrem.
      apply Hrem. eapply elem_of_sublist; [done|]. by apply round_pool.
    - pose proof (round_record s) as H.
      destruct Hends as [Hbody|Hbody]; rewrite Hbody in H;
        destruct H as (_ & _ & _ & [(-> & _ & _)|(q & -> & _ & _ & Hq)]);
        try done; rewrite fmap_app; apply Forall_app; (split; [done|]);
        apply Forall_singleton;
        (destruct Hq as [?|[Hq|(Hnil & Hb & Hrows)]];
         [done | by rewrite Forall_forall in Hrem; apply Hrem
         | destruct (Hj Hb); done]). }
  assert (P s1) as Hs1.
  { revert Hreach. apply reachable_ind.
    - split; [|by apply Forall_nil]. apply Forall_forall. intros q Hq.
      by apply unique_elem.
    - intros s s' Hs _ Hbody HP. apply (Hstep s s'); [|done|by left].
      by apply (reachable_selects_well questions oracle answers start_id min_questions). }
  assert (P final ∧ asked (trace final) = history final) as [[_ HP] ->]; [|done].
  pose proof (reachable_history _ _ _ _ _ s1 Hreach) as Hhist.
  destruct Hleaves as [[_ ->]|[_ Hbody]]; [by destruct Hhist|]. split.
  - apply (Hstep s1 final); [|done|by right].
    by apply (reachable_selects_well questions oracle answers start_id min_questions).
  - pose proof (round_history questions oracle answers min_questions s1 Hhist) as H.
    rewrite Hbody in H. by destruct H.
Qed.

(** X9: a round forgets nothing: after any number of rounds the history
    and the events are extended, the asked identifiers are still asked, the
    pool is a part of what it was, and the count is not smaller. *)
Theorem record_only_grows s s' :
  rtc (next_round questions oracle answers min_questions) s s' →
  history s `prefix_of` history s'
  ∧ trace s `prefix_of` trace s'
  ∧ asked_ids s ⊆ asked_ids s'
  ∧ remaining_questions s' `sublist_of` remaining_questions s
  ∧ asked_count s ≤ asked_count s'.
Proof.
  induction 1 as [s|s s1 s2 [_ Hends] _ (IH1 & IH2 & IH3 & IH4 & IH5)]; [done|].
  pose proof (round_pool s s1 Hends) as Hpool.
  pose proof (round_record s) as H.
  assert (history s `prefix_of` history s1 ∧ trace s `prefix_of` trace s1
          ∧ asked_ids s ⊆ asked_ids s1 ∧ asked_count s ≤ asked_count s1)
    as (H1 & H2 & H3 & H4).
  { destruct Hends as [Hbody|Hbody]; rewrite Hbody in H;
      destruct H as (? & ? & _ & [(-> & _ & ->)|(q & -> & _ & -> & _)]);
      repeat split; try done; try lia; by apply prefix_app_r. }
  split; [by etrans|]. split; [by etrans|]. split; [by etrans|].
  split; [by etrans|lia].
Qed.

(** X10: the selector is called at most twice for each question put to the
    person. *)
Theorem selector_calls_bounded :
  ∃ final,
    ask_questions questions oracle answers start_id min_questions
    = Some (Returned final)
    ∧ length (pools (trace final)) ≤ 2 * length (asked (trace final)).
Proof.
  destruct (final_invariant
    (λ s, (asked (trace s) = history s ∧ length (history s) = asked_count s)
          ∧ length (pools (trace s)) ≤ 2 * asked_count s))
    as (final & Hrun & [Htr Hlen] & Hcalls).
  - split; [done|]. cbn. lia.
  - intros s s' [Hhist Hcalls] Hends.
    pose proof (round_record s) as H.
    pose proof (round_history questions oracle answers min_questions s Hhist) as H'.
    destruct Hends as [Hbody|Hbody]; rewrite Hbody in H, H';
      (split; [done|]);
      destruct H as (_ & _ & Hp & [(_ & _ & Hc)|(q & _ & _ & Hc & _)]); lia.
  - exists final. split; [done|]. rewrite Htr, Hlen. done.
Qed.

(** X11: on an empty table, with a question to ask at least, the interview
    is the fixed question of the selector's handler, once, and then the
    message "No more questions available.", whatever the oracle does and
    whatever the start identifier is. *)
Theorem empty_table_one_question n :
  ∃ final,
    ask_questions [] oracle answers start_id (S n) = Some (Returned final)
    ∧ trace final
      = [EvSelect [] other_interests;
         EvAsk other_interests (read_answer (answers 0)); EvNoMore]
    ∧ history final = [(other_interests, read_answer (answers 0))].
Proof.
  unfold ask_questions. cbn [loop].
  rewrite bool_decide_eq_true_2 by (cbn; lia).
  unfold loop_body. rewrite choose_branching by (cbn; done || lia).
  unfold rows_by_id, select. cbn.
  destruct (selector_returns [] [] (oracle 0)) as (q & Hq & _ & Hnil).
  rewrite Hq, (Hnil eq_refl). cbn.
  unfold advance, pick_next, oracle_pick. cbn.
  rewrite bool_decide_eq_false_2 by apply not_elem_of_nil. cbn.
  eexists. split; [reflexivity|]. done.
Qed.

(** X12: on a non-empty table whose question texts are distinct and whose
    identifiers are not empty, the interview puts exactly
    [min(min_questions, number of questions)] questions; the questions put
    and the questions left in the pool are, together, the questions of the
    table, each once; with [min_questions] at least the number of questions,
    every question of the table is put. *)
Theorem asks_exactly :
  questions ≠ [] →
  NoDup (Question <$> questions) →
  Forall (λ r, QuestionID r ≠ []) questions →
  ∃ final,
    ask_questions questions oracle answers start_id min_questions
    = Some (Returned final)
    ∧ length (asked (trace final)) = min_questions `min` length questions
    ∧ (asked (trace final)).*1 ++ remaining_questions final
      ≡ₚ Question <$> questions
    ∧ (length questions ≤ min_questions →
       (asked (trace final)).*1 ≡ₚ Question <$> questions).
Proof.
  intros Htable Htexts Hids.
  destruct (ask_questions_run questions oracle answers start_id min_questions)
    as (final & s1 & Hrun & Hreach & Hleaves).
  exists final. split; [done|].
  pose proof (reachable_history _ _ _ _ _ s1 Hreach) as Hhist.
  pose proof (reachable_count _ _ _ _ _ s1 Hreach) as Hcount.
  pose proof (reachable_fresh _ _ _ _ _ s1 Htexts Hids Htable Hreach) as Hfresh.
  assert (asked (trace final) = history final
          ∧ length (history final) = asked_count final
          ∧ (history final).*1 ++ remaining_questions final ≡ₚ Question <$> questions
          ∧ asked_count final ≤ min_questions
          ∧ (min_questions ≤ asked_count final ∨ remaining_questions final = []))
    as (Htr & Hlen & Hperm & Hle & Hend).
  { apply leaves_cases in Hleaves as [[Hge ->]|(Hlt & Hbody & Hnil & _ & Hc)].
    - destruct Hhist, Hfresh. by repeat split; try left.
    - pose proof (round_history questions oracle answers min_questions s1 Hhist) as H.
      pose proof (round_fresh questions oracle answers min_questions Htexts Hids Htable s1 Hfresh) as H'.
      rewrite Hbody in H, H'. destruct H, H'.
      repeat split; try done; [lia|by right]. }
  rewrite Htr. pose proof (Permutation_length Hperm) as Hsize.
  rewrite length_app, !length_fmap in Hsize.
  split; [|split; [done|]].
  - destruct Hend as [?|Hnil]; [|rewrite Hnil in Hsize; cbn in Hsize]; lia.
  - intros Hall.
    assert (remaining_questions final = []) as Hnil.
    { destruct Hend as [?|?]; [|done]. apply length_zero_iff_nil. lia. }
    by rewrite Hnil, app_nil_r in Hperm.
Qed.

(** X13: the interview always gets to its printout: the loop is left
    without an exception, the suggestion is made, and the report has the
    five keys that the printing reads; the recommendation printed is the
    suggestion, and the details are the oracle's text on the market, or the
    description of its failure. *)
Theorem interview_concludes :
  ∃ final out,
    ask_questions questions oracle answers start_id min_questions
    = Some (Returned final)
    ∧ conclude oracle final = Some out
    ∧ recommended out = get_suggestion (history final) (oracle (oracle_calls final))
    ∧ details out = match oracle (S (oracle_calls final)) with
                    | Text text => text
                    | Fails message => message
                    end.
Proof.
  destruct (ask_questions_run questions oracle answers start_id min_questions)
    as (final & s1 & Hrun & _).
  destruct (present_some
              (get_suggestion (history final) (oracle (oracle_calls final)))
              (oracle (S (oracle_calls final)))) as (out & Hout & ? & ?).
  by exists final, out.
Qed.

End MoreRounds.

Lemma record_only_grows_demo :
  let s := initial demo_table (py "Q1") in
  let s' := demo_round s in
  history s `prefix_of` history s'
  ∧ trace s `prefix_of` trace s'
  ∧ asked_ids s ⊆ asked_ids s'
  ∧ remaining_questions s' `sublist_of` remaining_questions s
  ∧ asked_count s ≤ asked_count s'.
Proof.
  intros s s'.
  apply (record_only_grows demo_table demo_oracle demo_answers 10 s s').
  apply rtc_once. split; [cbn; lia | left; vm_compute; reflexivity].
Defined.

Lemma asks_table_questions_demo :
  ∃ final,
    ask_questions demo_table demo_oracle demo_answers (py "Q1") 10
    = Some (Returned final)
    ∧ Forall (λ q, q ∈ Question <$> demo_table) (asked (trace final)).*1.
Proof.
  apply (asks_table_questions demo_table demo_oracle demo_answers (py "Q1") 10).
  done.
Defined.

Lemma asks_exactly_demo :
  ∃ final,
    ask_questions demo_table demo_oracle demo_answers (py "Q1") 2
    = Some (Returned final)
    ∧ length (asked (trace final)) = 2 `min` length demo_table
    ∧ (asked (trace final)).*1 ++ remaining_questions final
      ≡ₚ Question <$> demo_table
    ∧ (length demo_table ≤ 2 →
       (asked (trace final)).*1 ≡ₚ Question <$> demo_table).
Proof.
  apply (asks_exactly demo_table demo_oracle demo_answers (py "Q1") 2).
  - done.
  - apply (bool_decide_unpack _). vm_compute. exact I.
  - repeat constructor; done.
Defined.

(** ** The table of questions: [load_questions] *)

Lemma digits_to_end_spec seen s :
  digits_to_end seen s = true
  ↔ ∃ ds tail, s = ds ++ tail
               ∧ Forall (λ c, isdigit c = true) ds
               ∧ (tail = [] ∨ tail = [nl])
               ∧ (seen = true ∨ ds ≠ []).
Proof.
  revert seen. induction s as [|c s IH]; intros seen; cbn [digits_to_end].
  - split.
    + intros ->. exists [], []. repeat split; auto.
    + intros (ds & tail & Hs & _ & _ & [?|Hds]); [done|].
      symmetry in Hs. apply app_eq_nil in Hs as [? _]. done.
  - destruct (isdigit c) eqn:Hc.
    + rewrite IH. split.
      * intros (ds & tail & -> & Hds & Htail & _).
        exists (c :: ds), tail. repeat split; auto.
      * intros (ds & tail & Hs & Hds & Htail & _).
        destruct ds as [|d ds].
        { cbn in Hs. destruct Htail as [->| ->]; [done|].
          injection Hs as -> _. by vm_compute in Hc. }
        cbn in Hs. injection Hs as -> ->.
        exists ds, tail. apply Forall_cons in Hds as [_ ?]. repeat split; auto.
    + split.
      * intros H. apply andb_true_iff in H as [H Hnil].
        apply andb_true_iff in H as [-> Hnl].
        apply bool_decide_eq_true in Hnil as ->.
        apply bool_decide_eq_true in Hnl as ->.
        exists [], [nl]. repeat split; auto.
      * intros (ds & tail & Hs & Hds & Htail & Hseen).
        destruct ds as [|d ds].
        { cbn in Hs. destruct Hseen as [->|?]; [|done].
          destruct Htail as [->| ->]; [done|]. injection Hs as -> ->. done. }
        cbn in Hs. injection Hs as -> ->.
        apply Forall_cons in Hds as [Hd _]. congruence.
Qed.

Lemma id_pattern_spec i :
  id_pattern i = true
  ↔ ∃ c ds tail, i = c :: ds ++ tail
                 ∧ (c = "Q"%char ∨ c = "S"%char)
                 ∧ ds ≠ []
                 ∧ Forall (λ d, isdigit d = true) ds
                 ∧ (tail = [] ∨ tail = [nl]).
Proof.
  destruct i as [|c s]; cbn [id_pattern].
  - split; [done|]. by intros (? & ? & ? & ? & _).
  - rewrite andb_true_iff, orb_true_iff, !bool_decide_eq_true, digits_to_end_spec.
    split.
    + intros (Hc & ds & tail & -> & Hds & Htail & [?|Hne]); [done|].
      by exists c, ds, tail.
    + intros (c' & ds & tail & Hi & Hc & Hne & Hds & Htail).
      injection Hi as -> ->. split; [done|]. exists ds, tail. auto.
Qed.

Lemma no_row_kept (l : list raw_row) :
  filter (λ r, id_matches r = true) l = []
  ↔ Forall (λ r, id_matches r = false) l.
Proof.
  induction l as [|r l IH]; [done|].
  rewrite filter_cons, Forall_cons. destruct (id_matches r) eqn:Hr.
  - rewrite decide_True by done. split; [done|]. by intros [? _].
  - rewrite decide_False by done. rewrite IH. tauto.
Qed.

Lemma load_questions_some parsed questions :
  load_questions parsed = Some questions →
  ∃ df, parsed = Some df
        ∧ py "QuestionID" ∈ columns df ∧ py "Question" ∈ columns df
        ∧ py "NextIfYes" ∈ columns df ∧ py "NextIfNo" ∈ columns df
        ∧ questions = to_record <$> filter (λ r, id_matches r = true) (rows df)
        ∧ questions ≠ [].
Proof.
  unfold load_questions. destruct parsed as [df|]; [|done].
  repeat case_bool_decide; cbn; try done.
  intros [= <-]. exists df. repeat split; try done.
  intros Hnil. apply fmap_nil_inv in Hnil. done.
Qed.

(** X14: the identifiers that line 13 keeps are a [Q] or an [S], then one
    digit or more, then nothing, or one newline that ends the text. *)
Theorem valid_id_shape i :
  id_pattern i = true
  ↔ ∃ c ds tail, i = c :: ds ++ tail
                 ∧ (c = "Q"%char ∨ c = "S"%char)
                 ∧ ds ≠ []
                 ∧ Forall (λ d, isdigit d = true) ds
                 ∧ (tail = [] ∨ tail = [nl]).
Proof. apply id_pattern_spec. Qed.

(** X15: a table that [load_questions] returns has the four columns that
    the interview reads, is not empty, and holds, in the order of the file,
    the rows whose identifier has the form asked for and no other row; no
    identifier in it is empty. *)
Theorem loaded_table parsed questions :
  load_questions parsed = Some questions →
  ∃ df, parsed = Some df
        ∧ Forall (λ c, c ∈ columns df)
            [py "QuestionID"; py "Question"; py "NextIfYes"; py "NextIfNo"]
        ∧ questions ≠ []
        ∧ questions `sublist_of` (to_record <$> rows df)
        ∧ Forall (λ q, id_pattern (QuestionID q) = true ∧ QuestionID q ≠ []) questions
        ∧ (∀ r, r ∈ rows df → id_matches r = true → to_record r ∈ questions).
Proof.
  intros H. apply load_questions_some in H
    as (df & -> & Hid & Hq & Hyes & Hno & -> & Hne).
  exists df. repeat split; try done.
  - by repeat constructor.
  - apply fmap_sublist, sublist_filter.
  - apply Forall_fmap, Forall_forall. intros r Hr.
    apply list_elem_of_filter in Hr as [Hr _].
    unfold id_matches in Hr. unfold to_record. cbn.
    destruct (raw_id r) as [i|]; [|done]. cbn. split; [done|].
    by destruct i.
  - intros r Hr Hm. apply list_elem_of_fmap. exists r. split; [done|].
    by apply list_elem_of_filter.
Qed.

(** X16: [load_questions] ends the program exactly when the file cannot
    be read, or one of the four columns is missing, or no row has an
    identifier of the form asked for. *)
Theorem load_questions_exits parsed :
  load_questions parsed = None
  ↔ match parsed with
    | None => True
    | Some df =>
        Exists (λ c, c ∉ columns df)
          [py "QuestionID"; py "Question"; py "NextIfYes"; py "NextIfNo"]
        ∨ Forall (λ r, id_matches r = false) (rows df)
    end.
Proof.
  destruct parsed as [df|]; [|done]. unfold load_questions.
  pose proof (no_row_kept (rows df)) as Hnil.
  rewrite !Exists_cons, Exists_nil.
  repeat case_bool_decide; cbn; split; try done; tauto.
Qed.

(** ** The whole program: [main] *)

(** X17: when the choice typed is 1 or 2, up to the whitespace around it,
    and the file of that mode is accepted, the program runs the interview
    on that file from [Q1] or [S1], with at least ten questions and the
    lines typed after the key as answers, and ends on its printout; no
    exception ends it. *)
Theorem main_reports lines career skills oracle parsed start_id questions :
  (PyStr.strip (lines 0) = py "1" ∧ parsed = career ∧ start_id = py "Q1")
  ∨ (PyStr.strip (lines 0) = py "2" ∧ parsed = skills ∧ start_id = py "S1") →
  load_questions parsed = Some questions →
  ∃ final out,
    ask_questions questions oracle (λ n, lines (n + 2)) start_id 10
    = Some (Returned final)
    ∧ conclude oracle final = Some out
    ∧ main lines career skills oracle = Reported out.
Proof.
  intros Hmode Hload.
  destruct (ask_questions_run questions oracle (λ n, lines (n + 2)) start_id 10)
    as (final & s1 & Hrun & _).
  destruct (present_some
              (get_suggestion (history final) (oracle (oracle_calls final)))
              (oracle (S (oracle_calls final)))) as (out & Hout & _).
  exists final, out. repeat split; [done..|].
  unfold main.
  destruct Hmode as [(Hc & -> & ->)|(Hc & -> & ->)]; rewrite Hc.
  - rewrite bool_decide_eq_true_2 by done.
    unfold run_advisor. rewrite Hload, Hrun. unfold conclude. by rewrite Hout.
  - rewrite bool_decide_eq_false_2 by (by vm_compute).
    rewrite bool_decide_eq_true_2 by done.
    unfold run_advisor. rewrite Hload, Hrun. unfold conclude. by rewrite Hout.
Qed.



Lemma loaded_table_demo :
  ∃ df, Some demo_frame = Some df
        ∧ Forall (λ c, c ∈ columns df)
            [py "QuestionID"; py "Question"; py "NextIfYes"; py "NextIfNo"]
        ∧ demo_table ≠ []
        ∧ demo_table `sublist_of` (to_record <$> rows df)
        ∧ Forall (λ q, id_pattern (QuestionID q) = true ∧ QuestionID q ≠ []) demo_table
        ∧ (∀ r, r ∈ rows df → id_matches r = true → to_record r ∈ demo_table).
Proof.
  apply (loaded_table (Some demo_frame) demo_table).
  vm_compute. reflexivity.
Defined.

Lemma main_reports_demo :
  ∃ final out,
    ask_questions demo_table demo_oracle (λ n, demo_lines (n + 2)) (py "Q1") 10
    = Some (Returned final)
    ∧ conclude demo_oracle final = Some out
    ∧ main demo_lines (Some demo_frame) None demo_oracle = Reported out.
Proof.
  apply (main_reports demo_lines (Some demo_frame) None demo_oracle
           (Some demo_frame) (py "Q1") demo_table).
  - left. split; [vm_compute; reflexivity|]. split; reflexivity.
  - vm_compute. reflexivity.
Defined.
